(** * DiskUtilsLib: volume -> physical disk -> serial number, model and size

    A shallow embedding of [DiskUtilsLib.hpp]: the two static functions of
    [DiskUtils] ([GetVolumeDiskExtents], [GetDiskProperties]) and the class
    [DiskPropertiesFetcher] (constructor and three accessors).

    The operating system is a stub: a device namespace that answers
    [CreateFileW] and the three device-control requests the code issues.  The
    calls thread an explicit state (the table of open handles, the thread's
    last-error value, the lines written to [std::cerr], and the list of paths
    handed to [CreateFileW]).  A device-control request is answered into the
    buffer the code passes, of the size the code passes: the one
    [VOLUME_DISK_EXTENTS] variable has room for one extent, and the request
    fails with [ERROR_MORE_DATA] when the volume has more.  A read through a
    pointer that has left the 1024-byte [buffer] has no defined behaviour in
    C++; the embedding stops there with [ReadsOutside i], [i] being the
    index of the offending byte. *)

From stdpp Require Import gmap strings list fin_maps pretty.

Local Open Scope Z_scope.

(** ** Machine types *)

(** [BYTE] and [char] are 8-bit; a [std::string] and a [std::wstring] are
    both modelled as [string]. *)
Abbreviation BYTE := Ascii.ascii (only parsing).
(** [DWORD]: unsigned 32-bit. *)
Abbreviation DWORD := N (only parsing).

(** Conversion of a [DWORD] to [int] (what [push_back] does with
    [DiskNumber] on a [std::vector<int>]): the same 32 bits read as signed. *)
Definition int_of_DWORD (d : DWORD) : Z :=
  (Z.of_N d + 2 ^ 31) mod 2 ^ 32 - 2 ^ 31.

(** [LONGLONG]: signed 64-bit.  A product that leaves the range keeps its
    low 64 bits (two's complement), as the compiled multiplication does. *)
Definition wrap64 (z : Z) : Z := (z + 2 ^ 63) mod 2 ^ 64 - 2 ^ 63.
Definition mul64 (a b : Z) : Z := wrap64 (a * b).

(** [static_cast<DWORD>] of a [LONGLONG]. *)
Definition DWORD_of_LONGLONG (z : Z) : DWORD := Z.to_N (z mod 2 ^ 32).

(** ** Structures of the platform headers (only the fields the code reads) *)

Record DISK_EXTENT := {
  DiskNumber : DWORD;
  StartingOffset : Z;
  ExtentLength : Z
}.

(** [VOLUME_DISK_EXTENTS]: what a successful extent request leaves in the
    variable [diskExtents], the counted array [Extents], whose length is
    [NumberOfDiskExtents].  The variable has room for [ANYSIZE_ARRAY]
    extents and the request is made with its size: the array of an answered
    request is never longer (lemma [extents_answered]). *)
Abbreviation VOLUME_DISK_EXTENTS := (list DISK_EXTENT) (only parsing).

(** The platform headers declare [DISK_EXTENT Extents[ANYSIZE_ARRAY]] with
    [ANYSIZE_ARRAY] defined as 1: [sizeof(VOLUME_DISK_EXTENTS)] is the count
    and one extent. *)
Definition ANYSIZE_ARRAY : nat := 1.

Record DISK_GEOMETRY := {
  Cylinders : Z;            (* LARGE_INTEGER, read through .QuadPart *)
  TracksPerCylinder : DWORD;
  SectorsPerTrack : DWORD;
  BytesPerSector : DWORD
}.

Record STORAGE_DEVICE_DESCRIPTOR := {
  ProductIdOffset : DWORD;
  SerialNumberOffset : DWORD
}.

(** [sizeof(buffer)] for [BYTE buffer[1024]]. *)
Definition sizeof_buffer : N := 1024.

(** ** The stubbed operating system *)

(** What a device-control request or an open comes back with: failure with
    the error code [GetLastError] will report, or the payload. *)
Inductive answer (A : Type) : Type :=
  | Failed (code : DWORD)
  | Answered (a : A).
Arguments Failed {A} code.
Arguments Answered {A} a.

(** A device object, by what it answers to each of the three requests,
    given room enough for the answer. *)
Record Device := {
  volume_disk_extents : answer (list DISK_EXTENT);  (* the volume's extents *)
  storage_property : answer (list BYTE);   (* the bytes the driver writes *)
  drive_geometry : answer DISK_GEOMETRY
}.

(** The device namespace: what opening a path yields. *)
Record OS := { os_open : string → answer Device }.

Inductive HANDLE :=
  | INVALID_HANDLE_VALUE
  | Handle (id : N).

Global Instance HANDLE_eq_dec : EqDecision HANDLE.
Proof. solve_decision. Defined.

Definition ERROR_INVALID_HANDLE : DWORD := 6%N.
Definition ERROR_MORE_DATA : DWORD := 234%N.

Record OSState := {
  handles : gmap N Device;     (* the open handles *)
  last_error : DWORD;          (* what GetLastError returns *)
  cerr : list string;          (* lines written to std::cerr, oldest first *)
  opened : list string         (* paths handed to CreateFileW, oldest first *)
}.

Definition initial_state : OSState :=
  {| handles := ∅; last_error := 0%N; cerr := []; opened := [] |}.

(** ** Results and the call monad *)

Inductive outcome (A : Type) : Type :=
  | Returns (a : A)
  | ReadsOutside (i : N).   (* byte [i] of [buffer] was read, [i >= 1024] *)
Arguments Returns {A} a.
Arguments ReadsOutside {A} i.

Definition result {A B : Type} (f : A → B) (o : outcome A) : outcome B :=
  match o with
  | Returns a => Returns (f a)
  | ReadsOutside i => ReadsOutside i
  end.

Definition M (A : Type) : Type := OSState → outcome (A * OSState).

Global Instance M_ret : MRet M := λ A a σ, Returns (a, σ).
Global Instance M_bind : MBind M := λ A B f m σ,
  match m σ with
  | Returns (a, σ') => f a σ'
  | ReadsOutside i => ReadsOutside i
  end.

(** A pure step that can leave the buffer, run inside a call. *)
Definition lift {A : Type} (o : outcome A) : M A := λ σ,
  match o with
  | Returns a => Returns (a, σ)
  | ReadsOutside i => ReadsOutside i
  end.

Definition set_last_error (e : DWORD) (σ : OSState) : OSState :=
  {| handles := handles σ; last_error := e; cerr := cerr σ; opened := opened σ |}.
Definition set_handles (h : gmap N Device) (σ : OSState) : OSState :=
  {| handles := h; last_error := last_error σ; cerr := cerr σ; opened := opened σ |}.
Definition log_open (path : string) (σ : OSState) : OSState :=
  {| handles := handles σ; last_error := last_error σ; cerr := cerr σ;
     opened := opened σ ++ [path] |}.
Definition log_cerr (line : string) (σ : OSState) : OSState :=
  {| handles := handles σ; last_error := last_error σ; cerr := cerr σ ++ [line];
     opened := opened σ |}.

(** [std::to_wstring(int)]: decimal, with a minus sign when negative. *)
Definition to_wstring (n : Z) : string := pretty n.

(** ** The embedded code *)

Section DiskUtilsLib.

(** The cast [(STORAGE_DEVICE_DESCRIPTOR* )buffer]: where the two offset
    fields lie in the buffer is fixed by the platform's declaration of the
    structure, which is not part of the repository; it is a parameter. *)
Variable as_descriptor : list BYTE → STORAGE_DEVICE_DESCRIPTOR.

Variable os : OS.

(** [CreateFileW(path, 0, FILE_SHARE_READ | FILE_SHARE_WRITE, NULL,
    OPEN_EXISTING, 0, NULL)]: nothing is created; a path the namespace does
    not answer for gives [INVALID_HANDLE_VALUE]. *)
Definition CreateFileW (path : string) : M HANDLE := λ σ,
  let σ := log_open path σ in
  match os_open os path with
  | Failed e => Returns (INVALID_HANDLE_VALUE, set_last_error e σ)
  | Answered dev =>
      let id := fresh (dom (handles σ)) in
      Returns (Handle id, set_handles (<[id := dev]> (handles σ)) σ)
  end.

Definition CloseHandle (h : HANDLE) : M unit := λ σ,
  match h with
  | Handle id => Returns (tt, set_handles (delete id (handles σ)) σ)
  | INVALID_HANDLE_VALUE => Returns (tt, set_last_error ERROR_INVALID_HANDLE σ)
  end.

Definition GetLastError : M DWORD := λ σ, Returns (last_error σ, σ).

(** [DeviceIoControl(h, code, ...)]: [None] is [FALSE]; the control code is
    identified with the request it selects on the device. *)
Definition DeviceIoControl {A : Type} (h : HANDLE) (code : Device → answer A)
  : M (option A) := λ σ,
  match h with
  | Handle id =>
      match handles σ !! id with
      | Some dev =>
          match code dev with
          | Answered a => Returns (Some a, σ)
          | Failed e => Returns (None, set_last_error e σ)
          end
      | None => Returns (None, set_last_error ERROR_INVALID_HANDLE σ)
      end
  | INVALID_HANDLE_VALUE => Returns (None, set_last_error ERROR_INVALID_HANDLE σ)
  end.

(** The extent request into an output buffer with room for [room] extents:
    a volume that has more fails it with [ERROR_MORE_DATA]. *)
Definition IOCTL_VOLUME_GET_VOLUME_DISK_EXTENTS (room : nat) (dev : Device)
  : answer VOLUME_DISK_EXTENTS :=
  match volume_disk_extents dev with
  | Failed e => Failed e
  | Answered Extents =>
      if decide (length Extents ≤ room)%nat
      then Answered Extents
      else Failed ERROR_MORE_DATA
  end.
(** Always issued with the query the code builds: [StorageDeviceProperty],
    [PropertyStandardQuery]. *)
Definition IOCTL_STORAGE_QUERY_PROPERTY := storage_property.
Definition IOCTL_DISK_GET_DRIVE_GEOMETRY := drive_geometry.

Definition write_cerr (line : string) : M unit := λ σ,
  Returns (tt, log_cerr line σ).

(** [std::cerr << msg << GetLastError() << std::endl]. *)
Definition report (msg : string) : M unit :=
  e ← GetLastError;
  write_cerr (msg +:+ pretty e).

(** *** DiskUtils::GetVolumeDiskExtents *)

(** The [for] loop: one [push_back] per extent, in array order. *)
Fixpoint push_disk_numbers (Extents : list DISK_EXTENT) (diskNumbers : list Z)
  : list Z :=
  match Extents with
  | [] => diskNumbers
  | e :: rest => push_disk_numbers rest (diskNumbers ++ [int_of_DWORD (DiskNumber e)])
  end.

Definition GetVolumeDiskExtents (volumePath : string) (diskNumbers : list Z)
  : M (bool * list Z) :=
  hVolume ← CreateFileW volumePath;
  if decide (hVolume = INVALID_HANDLE_VALUE) then
    _ ← report "Failed to open volume. Error: ";
    mret (false, diskNumbers)
  else
    (* &diskExtents, sizeof(diskExtents): one variable, ANYSIZE_ARRAY extents *)
    r ← DeviceIoControl hVolume (IOCTL_VOLUME_GET_VOLUME_DISK_EXTENTS ANYSIZE_ARRAY);
    match r with
    | None =>
        _ ← report "Failed to get volume disk extents. Error: ";
        _ ← CloseHandle hVolume;
        mret (false, diskNumbers)
    | Some diskExtents =>
        let diskNumbers := push_disk_numbers diskExtents diskNumbers in
        _ ← CloseHandle hVolume;
        mret (true, diskNumbers)
    end.

(** *** DiskUtils::GetDiskProperties *)

(** [buffer] after [ZeroMemory] and the property request: the driver's bytes,
    as many as fit, over zeroes. *)
Definition fill_buffer (written : list BYTE) : list BYTE :=
  take (N.to_nat sizeof_buffer)
       (written ++ replicate (N.to_nat sizeof_buffer) Ascii.zero).

(** The loop
    [while (p[len] != '\0' && len < sizeof(buffer)) ++len;]
    where [p] is [(char* )buffer + offset].  [rest] is what is left of the
    buffer from [p + len] on and [at_] the index of [p[len]] in [buffer].
    [p[len]] is read before [len] is compared: once [rest] is empty the read
    is outside the buffer. *)
Fixpoint scan (rest : list BYTE) (at_ : N) (len : N) : outcome N :=
  match rest with
  | [] => ReadsOutside at_
  | c :: rest' =>
      if bool_decide (c ≠ Ascii.zero) && (len <? sizeof_buffer)%N
      then scan rest' (at_ + 1)%N (len + 1)%N
      else Returns len
  end.

(** One field: the scan from [offset], then [std::string(p, len)]. *)
Definition read_field (buffer : list BYTE) (offset : DWORD) : outcome string :=
  let p := drop (N.to_nat offset) buffer in
  result (λ len, String.string_of_list_ascii (take (N.to_nat len) p)) (scan p offset 0%N).

Definition GetDiskProperties (diskNumber : Z) (serialNumber model : string) (size : Z)
  : M (bool * string * string * Z) :=
  let devicePath := "\\.\PhysicalDrive" +:+ to_wstring diskNumber in
  hDevice ← CreateFileW devicePath;
  if decide (hDevice = INVALID_HANDLE_VALUE) then
    _ ← report "Failed to open device. Error: ";
    mret (false, serialNumber, model, size)
  else
    r ← DeviceIoControl hDevice IOCTL_STORAGE_QUERY_PROPERTY;
    match r with
    | None =>
        _ ← report "Failed to query device properties. Error: ";
        _ ← CloseHandle hDevice;
        mret (false, serialNumber, model, size)
    | Some written =>
        let buffer := fill_buffer written in
        let deviceDescriptor := as_descriptor buffer in
        (* Serial Number *)
        serialNumber ←
          (if decide (SerialNumberOffset deviceDescriptor ≠ 0%N)
           then lift (read_field buffer (SerialNumberOffset deviceDescriptor))
           else mret serialNumber);
        (* Model *)
        model ←
          (if decide (ProductIdOffset deviceDescriptor ≠ 0%N)
           then lift (read_field buffer (ProductIdOffset deviceDescriptor))
           else mret model);
        (* Size *)
        r ← DeviceIoControl hDevice IOCTL_DISK_GET_DRIVE_GEOMETRY;
        match r with
        | None =>
            _ ← report "Failed to get disk geometry. Error: ";
            _ ← CloseHandle hDevice;
            mret (false, serialNumber, model, size)
        | Some dg =>
            let size :=
              mul64 (mul64 (mul64 (Cylinders dg) (Z.of_N (TracksPerCylinder dg)))
                           (Z.of_N (SectorsPerTrack dg)))
                    (Z.of_N (BytesPerSector dg)) in
            _ ← CloseHandle hDevice;
            mret (true, serialNumber, model, size)
        end
    end.

(** *** class DiskPropertiesFetcher *)

Record DiskPropertiesFetcher := {
  serialNumber : string;
  model : string;
  size : Z                  (* LARGE_INTEGER, read through .QuadPart *)
}.

(** The range-[for] of the constructor; [GetDiskProperties] is handed the
    members themselves, by reference. *)
Fixpoint try_disks (diskNumbers : list Z) (this : DiskPropertiesFetcher)
  : M DiskPropertiesFetcher :=
  match diskNumbers with
  | [] => mret this
  | diskNumber :: rest =>
      '(ok, serialNumber', model', size') ←
        GetDiskProperties diskNumber (serialNumber this) (model this) (size this);
      let this :=
        {| serialNumber := serialNumber'; model := model'; size := size' |} in
      if ok : bool then mret this else try_disks rest this
  end.

(** The constructor [DiskPropertiesFetcher(volumePath)] (the record above
    has the class's name; the specification calls the construction
    [fetch]): the members are initialised to [""], [""] and [{ 0 }]. *)
Definition fetch (volumePath : string) : M DiskPropertiesFetcher :=
  let this := {| serialNumber := ""; model := ""; size := 0 |} in
  '(ok, diskNumbers) ← GetVolumeDiskExtents volumePath [];
  if ok : bool then try_disks diskNumbers this else mret this.

Definition DiskSerialNumber (this : DiskPropertiesFetcher) : string :=
  serialNumber this.

Definition DiskModel (this : DiskPropertiesFetcher) : string :=
  model this.

Definition DiskSize (this : DiskPropertiesFetcher) : DWORD :=
  DWORD_of_LONGLONG (Z.quot (size this) (1024 * 1024 * 1024)).

(** *** The calls read without their state

    What the two functions come to once the handle bookkeeping is carried
    out; the lemmas [GetVolumeDiskExtents_eq] and [GetDiskProperties_eq]
    below prove these readings from the code. *)

Definition device_path (diskNumber : Z) : string :=
  "\\.\PhysicalDrive" +:+ to_wstring diskNumber.

(** The state a failing call leaves: the path was opened, the error code
    set and reported; no handle stays open. *)
Definition failed_call (path msg : string) (e : DWORD) (σ : OSState) : OSState :=
  log_cerr (msg +:+ pretty e) (set_last_error e (log_open path σ)).

(** One string out-parameter: assigned from the buffer when the offset is
    nonzero, left alone otherwise. *)
Definition field (buffer : list BYTE) (offset : DWORD) (old : string)
  : outcome string :=
  if decide (offset ≠ 0%N) then read_field buffer offset else Returns old.

Definition size_in_bytes (dg : DISK_GEOMETRY) : Z :=
  mul64 (mul64 (mul64 (Cylinders dg) (Z.of_N (TracksPerCylinder dg)))
               (Z.of_N (SectorsPerTrack dg)))
        (Z.of_N (BytesPerSector dg)).

End DiskUtilsLib.

(** ** A concrete platform and stub devices, for closed examples *)

(** Little-endian [DWORD] at byte [pos]. *)
Definition dword_at (pos : nat) (buffer : list BYTE) : DWORD :=
  let b i := Ascii.N_of_ascii (default Ascii.zero (buffer !! (pos + i)%nat)) in
  (b 0%nat + 256 * (b 1%nat + 256 * (b 2%nat + 256 * b 3%nat)))%N.

Definition le32 (n : N) : list BYTE :=
  [Ascii.ascii_of_N (n mod 256); Ascii.ascii_of_N (n / 256 mod 256);
   Ascii.ascii_of_N (n / 65536 mod 256); Ascii.ascii_of_N (n / 16777216 mod 256)]%N.

(** The layout the Windows SDK gives [STORAGE_DEVICE_DESCRIPTOR] on a
    little-endian machine: [ProductIdOffset] at byte 16, [SerialNumberOffset]
    at byte 24. *)
Definition sdk_descriptor (buffer : list BYTE) : STORAGE_DEVICE_DESCRIPTOR :=
  {| ProductIdOffset := dword_at 16 buffer;
     SerialNumberOffset := dword_at 24 buffer |}.

(** A descriptor blob: the 36-byte header with the two offsets set, then
    [tail] from byte 36 on. *)
Definition descriptor_blob (product_off serial_off : N) (tail : list BYTE)
  : list BYTE :=
  replicate 16 Ascii.zero ++ le32 product_off ++ replicate 4 Ascii.zero
  ++ le32 serial_off ++ replicate 8 Ascii.zero ++ tail.

Definition cstr (s : string) : list BYTE :=
  String.list_ascii_of_string s ++ [Ascii.zero].

Definition ERROR_FILE_NOT_FOUND : DWORD := 2%N.
Definition ERROR_GEN_FAILURE : DWORD := 31%N.
Definition ERROR_INVALID_FUNCTION : DWORD := 1%N.

Definition os_of (namespace : gmap string Device) : OS :=
  {| os_open path :=
       match namespace !! path with
       | Some dev => Answered dev
       | None => Failed ERROR_FILE_NOT_FOUND
       end |}.

Definition a_volume (disks : list N) : Device :=
  {| volume_disk_extents :=
       Answered (map (λ d, {| DiskNumber := d; StartingOffset := 1048576;
                              ExtentLength := 1073741824 |}) disks);
     storage_property := Failed ERROR_INVALID_FUNCTION;
     drive_geometry := Failed ERROR_INVALID_FUNCTION |}.

Definition a_disk (descriptor : answer (list BYTE)) (dg : answer DISK_GEOMETRY)
  : Device :=
  {| volume_disk_extents := Failed ERROR_INVALID_FUNCTION;
     storage_property := descriptor;
     drive_geometry := dg |}.

Definition geometry_8GB : DISK_GEOMETRY :=
  {| Cylinders := 1000; TracksPerCylinder := 255; SectorsPerTrack := 63;
     BytesPerSector := 512 |}.

(** Model ["ACME SSD"] at byte 36 and serial ["WD-1234"] at byte 45. *)
Definition blob_acme : list BYTE :=
  descriptor_blob 36 45 (cstr "ACME SSD" ++ cstr "WD-1234").

(** Model ["OLD DISK"] at byte 36 and serial ["OLD-0001"] at byte 45. *)
Definition blob_old : list BYTE :=
  descriptor_blob 36 45 (cstr "OLD DISK" ++ cstr "OLD-0001").

(** A descriptor that reports no serial number: the serial-number offset
    is 0, the model ["ACME SSD"] is at byte 36, and the 16 bytes the blob
    starts with are not zero. *)
Definition blob_no_serial : list BYTE :=
  String.list_ascii_of_string "XXXXXXXXXXXXXXXX" ++ le32 36
  ++ replicate 4 Ascii.zero ++ le32 0 ++ replicate 8 Ascii.zero
  ++ cstr "ACME SSD".

(** A full 1024-byte blob whose serial number starts at byte 1020 and runs
    to the last byte of the buffer without a terminator. *)
Definition blob_unterminated : list BYTE :=
  descriptor_blob 36 1020
    (cstr "ACME SSD" ++ replicate 975 Ascii.zero
     ++ String.list_ascii_of_string "ABCD").

(** Volume [C:] on disk 0, which answers everything. *)
Definition os_single : OS :=
  os_of {[ "\\.\C:" := a_volume [0%N];
           "\\.\PhysicalDrive0" := a_disk (Answered blob_acme) (Answered geometry_8GB) ]}.

(** Volume [C:] on disk 0, whose descriptor is read but whose geometry
    request fails. *)
Definition os_geometry_fails : OS :=
  os_of {[ "\\.\C:" := a_volume [0%N];
           "\\.\PhysicalDrive0" := a_disk (Answered blob_old) (Failed ERROR_GEN_FAILURE) ]}.

(** Volume [C:] on disk 0, which answers everything and reports no serial
    number. *)
Definition os_no_serial : OS :=
  os_of {[ "\\.\C:" := a_volume [0%N];
           "\\.\PhysicalDrive0" :=
             a_disk (Answered blob_no_serial) (Answered geometry_8GB) ]}.

(** Volume [C:] spanning disks 0 and 1: disk 0 does not answer the property
    request; disk 1 answers everything. *)
Definition os_second_disk : OS :=
  os_of {[ "\\.\C:" := a_volume [0%N; 1%N];
           "\\.\PhysicalDrive0" := a_disk (Failed ERROR_GEN_FAILURE) (Answered geometry_8GB);
           "\\.\PhysicalDrive1" := a_disk (Answered blob_acme) (Answered geometry_8GB) ]}.

(** Volume [C:] whose extents name disk 1, disk 0 and disk 1 again. *)
Definition os_repeated_extents : OS :=
  os_of {[ "\\.\C:" := a_volume [1%N; 0%N; 1%N] ]}.

(** Volume [C:] on disk 0, whose serial number is not terminated. *)
Definition os_unterminated : OS :=
  os_of {[ "\\.\C:" := a_volume [0%N];
           "\\.\PhysicalDrive0" :=
             a_disk (Answered blob_unterminated) (Answered geometry_8GB) ]}.

(** Volume [C:] on disk 0, and no device to open for disk 0. *)
Definition os_no_disk : OS :=
  os_of {[ "\\.\C:" := a_volume [0%N] ]}.


(** 2^62 cylinders of two one-byte sectors each: 2^63 bytes. *)
Definition geometry_8EiB : DISK_GEOMETRY :=
  {| Cylinders := 4611686018427387904; TracksPerCylinder := 2;
     SectorsPerTrack := 1; BytesPerSector := 1 |}.


Definition os_8EiB : OS :=
  os_of {[ "\\.\C:" := a_volume [0%N];
           "\\.\PhysicalDrive0" := a_disk (Answered blob_acme) (Answered geometry_8EiB) ]}.

(** ** Vocabulary of the statements *)

(** The disk indices a volume resolves to (none when the resolver fails). *)
Definition resolved (os : OS) (volumePath : string) : list Z :=
  match GetVolumeDiskExtents os volumePath [] initial_state with
  | Returns ((true, diskNumbers), _) => diskNumbers
  | _ => []
  end.

(** The property read of one disk on fresh out-parameters: what it returns
    and what it leaves in them. *)
Definition read_alone (D : list BYTE → STORAGE_DEVICE_DESCRIPTOR) (os : OS)
  (diskNumber : Z) : outcome (bool * string * string * Z) :=
  result fst (GetDiskProperties D os diskNumber "" "" 0 initial_state).

(** Whether that read succeeds. *)
Definition read_ok (D : list BYTE → STORAGE_DEVICE_DESCRIPTOR) (os : OS)
  (diskNumber : Z) : outcome bool :=
  result (λ r, r.1.1.1) (read_alone D os diskNumber).

(** The descriptor the disk hands out has both offsets nonzero. *)
Definition carries_both_strings (D : list BYTE → STORAGE_DEVICE_DESCRIPTOR)
  (os : OS) (diskNumber : Z) : bool :=
  match os_open os (device_path diskNumber) with
  | Answered dev =>
      match storage_property dev with
      | Answered written =>
          let d := D (fill_buffer written) in
          bool_decide (SerialNumberOffset d ≠ 0%N)
          && bool_decide (ProductIdOffset d ≠ 0%N)
      | Failed _ => false
      end
  | Failed _ => false
  end.

(** [s], followed by its terminator, lies in [buffer] from [offset] on. *)
Definition string_at (buffer : list BYTE) (offset : DWORD) (s : string) : Prop :=
  offset ≠ 0%N
  ∧ Forall (λ c, c ≠ Ascii.zero) (String.list_ascii_of_string s)
  ∧ ∃ post, drop (N.to_nat offset) buffer
            = String.list_ascii_of_string s ++ Ascii.zero :: post.

(** The capacity the geometry describes, as a number. *)
Definition configured_bytes (dg : DISK_GEOMETRY) : Z :=
  Cylinders dg * Z.of_N (TracksPerCylinder dg) * Z.of_N (SectorsPerTrack dg)
  * Z.of_N (BytesPerSector dg).

(** The fetcher and the accessors' values of a construction. *)
Definition fetched (o : outcome (DiskPropertiesFetcher * OSState))
  : outcome DiskPropertiesFetcher := result fst o.

Definition accessors (this : DiskPropertiesFetcher) : string * string * DWORD :=
  (DiskSerialNumber this, DiskModel this, DiskSize this).

(** Two constructions, one after the other. *)
Definition fetch_twice (D : list BYTE → STORAGE_DEVICE_DESCRIPTOR) (os : OS)
  (volumePath1 volumePath2 : string)
  : M (DiskPropertiesFetcher * DiskPropertiesFetcher) :=
  first ← fetch D os volumePath1;
  second ← fetch D os volumePath2;
  mret (first, second).

(** How a call started in [σ] ends: it returns with the table of open
    handles as it found it, or it has read a byte past the buffer. *)
Definition releases {A : Type} (σ : OSState) (o : outcome (A * OSState)) : Prop :=
  match o with
  | Returns (_, σ') => handles σ' = handles σ
  | ReadsOutside i => (sizeof_buffer ≤ i)%N
  end.

(** ** Statements of the specification that the code does not meet

    Each is written out as the specification words it, to be refuted at a
    stub, and restated below in the form the code does satisfy. *)

(** "When every resolved index's property read fails (or the volume does
    not resolve), the fetcher ends up with empty serial number, empty model
    and size 0." *)
Definition nothing_obtained_leaves_empty
  (D : list BYTE → STORAGE_DEVICE_DESCRIPTOR) (os : OS) (volumePath : string) : Prop :=
  Forall (λ d, read_ok D os d = Returns false) (resolved os volumePath) →
  ∀ σ, ∃ f σ',
    fetch D os volumePath σ = Returns (f, σ') ∧ accessors f = ("", "", 0%N).


(** "After a successful geometry query the size in bytes is the product of
    the four fields computed in unsigned arithmetic of at least 64 bits." *)
Definition size_is_unsigned_product
  (D : list BYTE → STORAGE_DEVICE_DESCRIPTOR) (os : OS) (diskNumber : Z) : Prop :=
  ∀ disk dg sn m sz σ sn' m' sz' σ',
    os_open os (device_path diskNumber) = Answered disk →
    drive_geometry disk = Answered dg →
    GetDiskProperties D os diskNumber sn m sz σ = Returns ((true, sn', m', sz'), σ') →
    ∃ width, 64 ≤ width ∧ sz' = configured_bytes dg mod 2 ^ width.

(** ** Further stubs and vocabulary *)

(** A descriptor whose serial-number offset, 5000, lies past the buffer. *)
Definition blob_wild_offset : list BYTE :=
  descriptor_blob 36 5000 (cstr "ACME SSD").

Definition os_wild_offset : OS :=
  os_of {[ "\\.\C:" := a_volume [0%N];
           "\\.\PhysicalDrive0" :=
             a_disk (Answered blob_wild_offset) (Answered geometry_8GB) ]}.

(** Volume [C:] whose single extent names disk 2^32 - 1. *)
Definition os_top_index : OS :=
  os_of {[ "\\.\C:" := a_volume [4294967295%N] ]}.

(** Where a fetcher's data can come from: the answered geometry, or the
    descriptor, of one of the disks [ds]. *)
Definition size_from (os : OS) (ds : list Z) (z : Z) : Prop :=
  ∃ d dev dg,
    d ∈ ds ∧ os_open os (device_path d) = Answered dev
    ∧ drive_geometry dev = Answered dg ∧ z = size_in_bytes dg.

Definition serial_from (D : list BYTE → STORAGE_DEVICE_DESCRIPTOR) (os : OS)
  (ds : list Z) (s : string) : Prop :=
  ∃ d dev written,
    d ∈ ds ∧ os_open os (device_path d) = Answered dev
    ∧ storage_property dev = Answered written
    ∧ string_at (fill_buffer written)
                (SerialNumberOffset (D (fill_buffer written))) s.

Definition model_from (D : list BYTE → STORAGE_DEVICE_DESCRIPTOR) (os : OS)
  (ds : list Z) (s : string) : Prop :=
  ∃ d dev written,
    d ∈ ds ∧ os_open os (device_path d) = Answered dev
    ∧ storage_property dev = Answered written
    ∧ string_at (fill_buffer written)
                (ProductIdOffset (D (fill_buffer written))) s.

(** The resolver run twice on the same vector. *)
Definition resolve_twice (os : OS) (volumePath : string) (diskNumbers : list Z)
  : M (bool * list Z) :=
  '(_, diskNumbers) ← GetVolumeDiskExtents os volumePath diskNumbers;
  GetVolumeDiskExtents os volumePath diskNumbers.

(** ** Tactics for closed goals about the stubs *)

Ltac evaluated := vm_compute; reflexivity.

(** A [Forall] over a list that evaluates, of facts that evaluate. *)
Ltac all_evaluated :=
  match goal with
  | |- Forall _ ?l => let l' := eval vm_compute in l in change l with l'
  end;
  repeat (constructor; [evaluated |]); constructor.


(** * Properties *)

(** ** Integers *)

Lemma wrap64_exact z : - 2 ^ 63 ≤ z < 2 ^ 63 → wrap64 z = z.
Proof. intros H. unfold wrap64. rewrite Z.mod_small; lia. Qed.

Lemma wrap64_mod z : wrap64 z mod 2 ^ 64 = z mod 2 ^ 64.
Proof.
  unfold wrap64. rewrite Zminus_mod_idemp_l. f_equal. lia.
Qed.

Lemma wrap64_congr a b : a mod 2 ^ 64 = b mod 2 ^ 64 → wrap64 a = wrap64 b.
Proof.
  intros H. unfold wrap64. f_equal.
  rewrite (Z.add_mod a), (Z.add_mod b), H by lia. reflexivity.
Qed.

Lemma mul64_wrap64_l a b : mul64 (wrap64 a) b = mul64 a b.
Proof.
  unfold mul64. apply wrap64_congr.
  rewrite <- Zmult_mod_idemp_l, wrap64_mod, Zmult_mod_idemp_l. reflexivity.
Qed.

(** The three wrapped products come to the wrapped product of the four
    fields. *)
Lemma size_in_bytes_wrap dg : size_in_bytes dg = wrap64 (configured_bytes dg).
Proof.
  unfold size_in_bytes, configured_bytes.
  destruct dg as [c t s b]; simpl.
  change (mul64 c (Z.of_N t)) with (wrap64 (c * Z.of_N t)).
  rewrite mul64_wrap64_l.
  change (mul64 (c * Z.of_N t) (Z.of_N s)) with (wrap64 (c * Z.of_N t * Z.of_N s)).
  rewrite mul64_wrap64_l. reflexivity.
Qed.

Lemma size_in_bytes_exact dg :
  - 2 ^ 63 ≤ configured_bytes dg < 2 ^ 63 → size_in_bytes dg = configured_bytes dg.
Proof. intros H. rewrite size_in_bytes_wrap. apply wrap64_exact, H. Qed.

Lemma int_of_DWORD_small (d : N) : (d < 2 ^ 31)%N → int_of_DWORD d = Z.of_N d.
Proof.
  intros H. unfold int_of_DWORD.
  assert (Z.of_N d < 2 ^ 31) by lia.
  rewrite Z.mod_small; lia.
Qed.


(** ** The scan *)

Lemma length_fill_buffer written :
  length (fill_buffer written) = N.to_nat sizeof_buffer.
Proof.
  unfold fill_buffer. rewrite length_take, length_app, length_replicate. lia.
Qed.

(** A terminated string is scanned up to its terminator. *)
Lemma scan_terminated (s post : list BYTE) (at_ len : N) :
  Forall (λ c, c ≠ Ascii.zero) s →
  (len + N.of_nat (length s) ≤ sizeof_buffer)%N →
  scan (s ++ Ascii.zero :: post) at_ len = Returns (len + N.of_nat (length s))%N.
Proof.
  intros Hs. revert at_ len.
  induction Hs as [| c s Hc Hs IH]; intros at_ len Hlen; simpl.
  - f_equal. lia.
  - rewrite bool_decide_true by exact Hc.
    replace (len <? sizeof_buffer)%N with true
      by (symmetry; apply N.ltb_lt; simpl in Hlen; lia).
    simpl. rewrite IH by (simpl in Hlen; lia). f_equal. lia.
Qed.

(** Without a terminator the scan goes on to the byte after the last one:
    the bound on [len] does not stop it inside the buffer. *)
Lemma scan_unterminated (rest : list BYTE) (at_ len : N) :
  Forall (λ c, c ≠ Ascii.zero) rest →
  (len + N.of_nat (length rest) ≤ sizeof_buffer)%N →
  scan rest at_ len = ReadsOutside (at_ + N.of_nat (length rest))%N.
Proof.
  intros Hs. revert at_ len.
  induction Hs as [| c s Hc Hs IH]; intros at_ len Hlen; simpl.
  - f_equal. lia.
  - rewrite bool_decide_true by exact Hc.
    replace (len <? sizeof_buffer)%N with true
      by (symmetry; apply N.ltb_lt; simpl in Hlen; lia).
    simpl. rewrite IH by (simpl in Hlen; lia). f_equal. lia.
Qed.

Lemma read_field_string_at (buffer : list BYTE) (offset : N) (s : string) :
  (length buffer ≤ N.to_nat sizeof_buffer)%nat →
  string_at buffer offset s → read_field buffer offset = Returns s.
Proof.
  intros Hlen (Hoff & Hs & post & Hdrop).
  unfold read_field. rewrite Hdrop.
  assert (Hbound : (length (String.list_ascii_of_string s) < N.to_nat sizeof_buffer)%nat).
  { apply (f_equal length) in Hdrop.
    rewrite length_drop, length_app in Hdrop. simpl in Hdrop. lia. }
  rewrite scan_terminated by (try exact Hs; lia). simpl.
  rewrite take_app_length' by lia.
  f_equal. apply String.string_of_list_ascii_of_string.
Qed.

(** A field that runs to the end of the buffer without a terminator makes
    the scan read the byte after the buffer. *)
Lemma read_field_unterminated (buffer : list BYTE) (offset : N) :
  length buffer = N.to_nat sizeof_buffer →
  (offset ≤ sizeof_buffer)%N →
  Forall (λ c, c ≠ Ascii.zero) (drop (N.to_nat offset) buffer) →
  read_field buffer offset = ReadsOutside sizeof_buffer.
Proof.
  intros Hlen Hoff Hrest. unfold read_field.
  rewrite scan_unterminated by (try exact Hrest; rewrite length_drop; lia).
  simpl. f_equal. rewrite length_drop. lia.
Qed.

(** The scan returns only at a terminator inside the buffer: the bound on
    [len] never ends it. *)
Lemma scan_returns (rest : list BYTE) (at_ len n : N) :
  (len + N.of_nat (length rest) ≤ sizeof_buffer)%N →
  scan rest at_ len = Returns n →
  ∃ s post, rest = s ++ Ascii.zero :: post
            ∧ Forall (λ c, c ≠ Ascii.zero) s
            ∧ n = (len + N.of_nat (length s))%N.
Proof.
  revert at_ len. induction rest as [| c rest IH]; intros at_ len Hlen; simpl; [done |].
  destruct (decide (c = Ascii.zero)) as [-> | Hc].
  - intros [= <-]. exists [], rest. simpl. split; [done |]. split; [constructor | lia].
  - rewrite bool_decide_true by exact Hc.
    replace (len <? sizeof_buffer)%N with true
      by (symmetry; apply N.ltb_lt; simpl in Hlen; lia).
    simpl. intros Hscan.
    apply IH in Hscan as (s & post & -> & Hs & ->); [| simpl in Hlen; lia].
    exists (c :: s), post. simpl. split; [done |]. split; [by constructor | lia].
Qed.

Lemma scan_outside (rest : list BYTE) (at_ len i : N) :
  scan rest at_ len = ReadsOutside i → i = (at_ + N.of_nat (length rest))%N.
Proof.
  revert at_ len. induction rest as [| c rest IH]; intros at_ len; simpl.
  - intros [= <-]. lia.
  - destruct (_ && _); [| done]. intros Hscan. apply IH in Hscan. lia.
Qed.

(** A field read returns only a string that lies, terminated, in the
    buffer. *)
Lemma read_field_returns (buffer : list BYTE) (offset : N) (s : string) :
  length buffer = N.to_nat sizeof_buffer → offset ≠ 0%N →
  read_field buffer offset = Returns s → string_at buffer offset s.
Proof.
  intros Hlen Hoff. unfold read_field.
  destruct (scan _ offset 0%N) as [n | i] eqn:Hscan; [| done].
  apply scan_returns in Hscan as (chars & post & Hdrop & Hchars & ->);
    [| rewrite length_drop; lia].
  simpl. intros [= <-]. rewrite Hdrop, take_app_length' by lia.
  unfold string_at. rewrite String.list_ascii_of_string_of_list_ascii. eauto.
Qed.

(** Otherwise it has read a byte whose index is past the buffer. *)
Lemma read_field_outside (buffer : list BYTE) (offset i : N) :
  length buffer = N.to_nat sizeof_buffer →
  read_field buffer offset = ReadsOutside i → (sizeof_buffer ≤ i)%N.
Proof.
  intros Hlen. unfold read_field.
  destruct (scan _ offset 0%N) as [n | j] eqn:Hscan; [done |].
  apply scan_outside in Hscan. rewrite length_drop in Hscan.
  simpl. intros [= <-]. lia.
Qed.

Section Properties.

Variable as_descriptor : list BYTE → STORAGE_DEVICE_DESCRIPTOR.
Variable os : OS.

Implicit Types (σ : OSState) (path volumePath : string) (diskNumber : Z).

Lemma fresh_handle_unused σ : handles σ !! fresh (dom (handles σ)) = None.
Proof. apply not_elem_of_dom, is_fresh. Qed.

Lemma close_after_open σ (dev : Device) :
  delete (fresh (dom (handles σ))) (<[fresh (dom (handles σ)) := dev]> (handles σ))
  = handles σ.
Proof. apply delete_insert_id, fresh_handle_unused. Qed.

(** [GetVolumeDiskExtents], case by case on what the stub answers. *)
Lemma GetVolumeDiskExtents_eq volumePath (diskNumbers : list Z) σ :
  GetVolumeDiskExtents os volumePath diskNumbers σ =
  match os_open os volumePath with
  | Failed e =>
      Returns ((false, diskNumbers),
               failed_call volumePath "Failed to open volume. Error: " e σ)
  | Answered dev =>
      match IOCTL_VOLUME_GET_VOLUME_DISK_EXTENTS ANYSIZE_ARRAY dev with
      | Failed e =>
          Returns ((false, diskNumbers),
                   failed_call volumePath "Failed to get volume disk extents. Error: " e σ)
      | Answered diskExtents =>
          Returns ((true, push_disk_numbers diskExtents diskNumbers),
                   log_open volumePath σ)
      end
  end.
Proof.
  unfold GetVolumeDiskExtents, mbind, M_bind, CreateFileW.
  destruct (os_open os volumePath) as [e | dev]; simpl; [reflexivity |].
  rewrite lookup_insert_eq.
  destruct (IOCTL_VOLUME_GET_VOLUME_DISK_EXTENTS ANYSIZE_ARRAY dev)
    as [e | diskExtents]; simpl; rewrite close_after_open; reflexivity.
Qed.

(** The extent request is answered exactly when the volume's extents fit
    the room given. *)
Lemma extents_answered (room : nat) (dev : Device) (Extents : list DISK_EXTENT) :
  IOCTL_VOLUME_GET_VOLUME_DISK_EXTENTS room dev = Answered Extents
  ↔ volume_disk_extents dev = Answered Extents ∧ (length Extents ≤ room)%nat.
Proof.
  unfold IOCTL_VOLUME_GET_VOLUME_DISK_EXTENTS.
  destruct (volume_disk_extents dev) as [e | l].
  - split; [done | by intros [? _]].
  - case_decide as Hl.
    + split; [by intros [= <-] | by intros [[= ->] _]].
    + split; [done | intros [[= ->] ?]; lia].
Qed.

(** A volume with more extents than fit fails the request. *)
Lemma extents_more_data (room : nat) (dev : Device) (Extents : list DISK_EXTENT) :
  volume_disk_extents dev = Answered Extents → (room < length Extents)%nat →
  IOCTL_VOLUME_GET_VOLUME_DISK_EXTENTS room dev = Failed ERROR_MORE_DATA.
Proof.
  intros HE Hlen. unfold IOCTL_VOLUME_GET_VOLUME_DISK_EXTENTS. rewrite HE.
  rewrite decide_False by lia. reflexivity.
Qed.

(** [GetDiskProperties], case by case on what the stub answers. *)
Lemma GetDiskProperties_eq diskNumber (sn m : string) (sz : Z) σ :
  GetDiskProperties as_descriptor os diskNumber sn m sz σ =
  let path := device_path diskNumber in
  match os_open os path with
  | Failed e =>
      Returns ((false, sn, m, sz),
               failed_call path "Failed to open device. Error: " e σ)
  | Answered dev =>
      match storage_property dev with
      | Failed e =>
          Returns ((false, sn, m, sz),
                   failed_call path "Failed to query device properties. Error: " e σ)
      | Answered written =>
          let buffer := fill_buffer written in
          let d := as_descriptor buffer in
          match field buffer (SerialNumberOffset d) sn with
          | ReadsOutside i => ReadsOutside i
          | Returns sn' =>
              match field buffer (ProductIdOffset d) m with
              | ReadsOutside i => ReadsOutside i
              | Returns m' =>
                  match drive_geometry dev with
                  | Failed e =>
                      Returns ((false, sn', m', sz),
                               failed_call path "Failed to get disk geometry. Error: " e σ)
                  | Answered dg =>
                      Returns ((true, sn', m', size_in_bytes dg), log_open path σ)
                  end
              end
          end
      end
  end.
Proof.
  unfold GetDiskProperties, device_path, mbind, M_bind, CreateFileW.
  destruct (os_open os _) as [e | dev]; simpl; [reflexivity |].
  rewrite lookup_insert_eq. unfold IOCTL_STORAGE_QUERY_PROPERTY.
  destruct (storage_property dev) as [e | written]; simpl.
  { rewrite close_after_open. reflexivity. }
  unfold field.
  set (buffer := fill_buffer written).
  destruct (decide (SerialNumberOffset (as_descriptor buffer) ≠ 0%N)) as [Hs | Hs];
    [destruct (read_field buffer _) as [sn' | i] | ]; simpl; try reflexivity.
  all: destruct (decide (ProductIdOffset (as_descriptor buffer) ≠ 0%N)) as [Hp | Hp];
    [destruct (read_field buffer _) as [m' | j] | ]; simpl; try reflexivity.
  all: rewrite lookup_insert_eq; unfold IOCTL_DISK_GET_DRIVE_GEOMETRY;
    destruct (drive_geometry dev) as [e | dg]; simpl;
    rewrite close_after_open; reflexivity.
Qed.

(** ** One property read *)

(** Case analysis along [GetDiskProperties_eq], on the goal. *)
Ltac read_cases :=
  unfold read_ok, read_alone, carries_both_strings;
  rewrite ?GetDiskProperties_eq; cbv zeta; unfold field;
  repeat first
    [ progress simpl
    | match goal with
      | |- context [os_open os ?p] => destruct (os_open os p) as [? | ?dev]
      | |- context [storage_property ?d] =>
          destruct (storage_property d) as [? | ?written]
      | |- context [decide (?x ≠ 0%N)] => destruct (decide (x ≠ 0%N))
      | |- context [read_field ?b ?o] => destruct (read_field b o)
      | |- context [drive_geometry ?d] => destruct (drive_geometry d) as [? | ?dg]
      end ].

(** A read that returns has closed its handle and opened one path. *)
Lemma GetDiskProperties_frame diskNumber (sn m : string) (sz : Z) σ r σ' :
  GetDiskProperties as_descriptor os diskNumber sn m sz σ = Returns (r, σ') →
  handles σ' = handles σ ∧ opened σ' = opened σ ++ [device_path diskNumber].
Proof. read_cases; intros; simplify_eq; done. Qed.

(** A read that does not return has read a byte past the buffer. *)
Lemma GetDiskProperties_outside diskNumber (sn m : string) (sz : Z) σ i :
  GetDiskProperties as_descriptor os diskNumber sn m sz σ = ReadsOutside i →
  (sizeof_buffer ≤ i)%N.
Proof.
  rewrite GetDiskProperties_eq. cbv zeta. unfold field.
  destruct (os_open os _) as [e | dev]; [done |].
  destruct (storage_property dev) as [e | written]; [done |].
  pose proof (length_fill_buffer written) as Hlen.
  destruct (decide (SerialNumberOffset _ ≠ 0%N));
    [destruct (read_field _ (SerialNumberOffset _)) as [sn' | j] eqn:Hs |].
  2: { intros [= <-]. by apply read_field_outside in Hs. }
  all: destruct (decide (ProductIdOffset _ ≠ 0%N));
    [destruct (read_field _ (ProductIdOffset _)) as [m' | j] eqn:Hm |].
  all: try by destruct (drive_geometry dev).
  all: intros [= <-]; by apply read_field_outside in Hm.
Qed.

(** What a read returns does not depend on the state it starts in. *)
Lemma GetDiskProperties_state_free diskNumber (sn m : string) (sz : Z) σ1 σ2 :
  result fst (GetDiskProperties as_descriptor os diskNumber sn m sz σ1)
  = result fst (GetDiskProperties as_descriptor os diskNumber sn m sz σ2).
Proof. read_cases; reflexivity. Qed.

(** A failing read leaves [size] as it was. *)
Lemma GetDiskProperties_false_size diskNumber (sn m : string) (sz : Z) σ
    (sn' m' : string) (sz' : Z) σ' :
  GetDiskProperties as_descriptor os diskNumber sn m sz σ
  = Returns ((false, sn', m', sz'), σ') → sz' = sz.
Proof. read_cases; intros; simplify_eq; done. Qed.

(** Whether a read succeeds depends neither on the out-parameters nor on
    the state. *)
Lemma read_ok_any diskNumber (b : bool) (sn m : string) (sz : Z) σ :
  read_ok as_descriptor os diskNumber = Returns b →
  ∃ sn' m' sz' σ',
    GetDiskProperties as_descriptor os diskNumber sn m sz σ
    = Returns ((b, sn', m', sz'), σ').
Proof. read_cases; intros; simplify_eq; eauto 6. Qed.

(** A read that fails at the device open or at the property request stores
    nothing. *)
Lemma read_without_descriptor diskNumber :
  match os_open os (device_path diskNumber) with
  | Failed _ => True
  | Answered dev => ∃ e, storage_property dev = Failed e
  end →
  read_alone as_descriptor os diskNumber = Returns (false, "", "", 0).
Proof.
  unfold read_alone. rewrite GetDiskProperties_eq. cbv zeta.
  destruct (os_open os _) as [e | dev]; [done |].
  by intros [e ->].
Qed.

(** A read that fails on fresh out-parameters and leaves them empty does so
    again whatever [size] holds. *)
Lemma read_stores_nothing diskNumber (sz : Z) σ :
  read_alone as_descriptor os diskNumber = Returns (false, "", "", 0) →
  ∃ σ', GetDiskProperties as_descriptor os diskNumber "" "" sz σ
        = Returns ((false, "", "", sz), σ').
Proof. read_cases; intros; simplify_eq; eauto. Qed.

(** A read that succeeds on fresh out-parameters succeeds on any, with the
    same size. *)
Lemma read_success_size diskNumber (s mdl : string) (z : Z) (sn m : string) (sz : Z) σ :
  read_alone as_descriptor os diskNumber = Returns (true, s, mdl, z) →
  ∃ sn' m' σ', GetDiskProperties as_descriptor os diskNumber sn m sz σ
               = Returns ((true, sn', m', z), σ').
Proof. read_cases; intros; simplify_eq; eauto. Qed.

(** A successful read whose descriptor carries both strings overwrites
    whatever the out-parameters held. *)
Lemma read_overwrites diskNumber (s mdl : string) (z : Z) (sn m : string) (sz : Z) σ :
  read_alone as_descriptor os diskNumber = Returns (true, s, mdl, z) →
  carries_both_strings as_descriptor os diskNumber = true →
  ∃ σ', GetDiskProperties as_descriptor os diskNumber sn m sz σ
        = Returns ((true, s, mdl, z), σ').
Proof.
  read_cases; intros H Hboth; simplify_eq; eauto;
    apply andb_true_iff in Hboth as [?%bool_decide_eq_true ?%bool_decide_eq_true];
    done.
Qed.

(** ** The resolver *)

Lemma push_disk_numbers_app (Extents : list DISK_EXTENT) (diskNumbers : list Z) :
  push_disk_numbers Extents diskNumbers
  = diskNumbers ++ map (λ e, int_of_DWORD (DiskNumber e)) Extents.
Proof.
  revert diskNumbers. induction Extents as [| e rest IH]; intros diskNumbers; simpl.
  - by rewrite app_nil_r.
  - rewrite IH, <- app_assoc. reflexivity.
Qed.

(** The resolver always returns, with its handle closed and one path
    opened; on an empty vector it yields [resolved]. *)
Lemma GetVolumeDiskExtents_resolved volumePath σ :
  ∃ (ok : bool) σ',
    GetVolumeDiskExtents os volumePath [] σ
    = Returns ((ok, resolved os volumePath), σ')
    ∧ (ok = false → resolved os volumePath = [])
    ∧ handles σ' = handles σ
    ∧ opened σ' = opened σ ++ [volumePath].
Proof.
  unfold resolved. rewrite !GetVolumeDiskExtents_eq.
  destruct (os_open os volumePath) as [e | dev]; simpl; [by eexists false, _ |].
  destruct (IOCTL_VOLUME_GET_VOLUME_DISK_EXTENTS ANYSIZE_ARRAY dev)
    as [e | diskExtents]; simpl;
    [by eexists false, _ | by eexists true, _].
Qed.

(** The resolver hands the constructor at most one disk number. *)
Lemma resolved_at_most_one volumePath : (length (resolved os volumePath) ≤ 1)%nat.
Proof.
  unfold resolved. rewrite GetVolumeDiskExtents_eq.
  destruct (os_open os volumePath) as [e | dev]; simpl; [lia |].
  destruct (IOCTL_VOLUME_GET_VOLUME_DISK_EXTENTS ANYSIZE_ARRAY dev)
    as [e | diskExtents] eqn:Hext; simpl; [lia |].
  apply extents_answered in Hext as [_ Hlen].
  rewrite push_disk_numbers_app, length_app, length_map. simpl.
  unfold ANYSIZE_ARRAY in Hlen. lia.
Qed.

(** ** The constructor's loop *)

Lemma try_disks_state_free (diskNumbers : list Z) (this : DiskPropertiesFetcher) σ1 σ2 :
  result fst (try_disks as_descriptor os diskNumbers this σ1)
  = result fst (try_disks as_descriptor os diskNumbers this σ2).
Proof.
  revert this σ1 σ2.
  induction diskNumbers as [| d rest IH]; intros this σ1 σ2; simpl; [reflexivity |].
  unfold mbind, M_bind.
  pose proof (GetDiskProperties_state_free d (serialNumber this) (model this)
                (size this) σ1 σ2) as Hfree.
  destruct (GetDiskProperties _ _ _ _ _ _ σ1) as [[r1 σ1'] | i1],
           (GetDiskProperties _ _ _ _ _ _ σ2) as [[r2 σ2'] | i2];
    simpl in Hfree; simplify_eq; [| reflexivity].
  destruct r2 as [[[[] sn'] m'] sz']; simpl; [reflexivity | apply IH].
Qed.

Lemma try_disks_frame (diskNumbers : list Z) (this : DiskPropertiesFetcher) σ :
  releases σ (try_disks as_descriptor os diskNumbers this σ).
Proof.
  revert this σ.
  induction diskNumbers as [| d rest IH]; intros this σ; simpl; [reflexivity |].
  unfold mbind, M_bind.
  destruct (GetDiskProperties _ _ _ _ _ _ σ) as [[r σ1] | i] eqn:Hread;
    [| by apply GetDiskProperties_outside in Hread].
  apply GetDiskProperties_frame in Hread as [Hh _].
  destruct r as [[[[] sn'] m'] sz']; simpl; [exact Hh |].
  specialize (IH {| serialNumber := sn'; model := m'; size := sz' |} σ1).
  destruct (try_disks _ _ rest _ σ1) as [[f σ2] | i]; simpl in *; congruence.
Qed.

(** Reads that all fail: every index is tried, in order, and [size] is left
    as it was. *)
Lemma try_disks_all_fail (diskNumbers : list Z) :
  Forall (λ d, read_ok as_descriptor os d = Returns false) diskNumbers →
  ∀ (this : DiskPropertiesFetcher) σ, ∃ f σ',
    try_disks as_descriptor os diskNumbers this σ = Returns (f, σ')
    ∧ size f = size this
    ∧ opened σ' = opened σ ++ map device_path diskNumbers.
Proof.
  induction 1 as [| d rest Hd _ IH]; intros this σ; simpl.
  - eexists _, _. by rewrite app_nil_r.
  - destruct (read_ok_any d false (serialNumber this) (model this) (size this) σ Hd)
      as (sn' & m' & sz' & σ1 & Hread).
    unfold mbind, M_bind. rewrite Hread. simpl.
    destruct (IH {| serialNumber := sn'; model := m'; size := sz' |} σ1)
      as (f & σ' & -> & Hsize & Hopened).
    eexists _, _. split; [reflexivity |].
    apply GetDiskProperties_false_size in Hread as Hsz.
    apply GetDiskProperties_frame in Hread as [_ Ho].
    simpl in Hsize. split; [congruence |].
    rewrite Hopened, Ho, <- app_assoc. reflexivity.
Qed.

(** Reads that all fail without storing a string leave the fetcher as it
    was constructed. *)
Lemma try_disks_store_nothing (diskNumbers : list Z) :
  Forall (λ d, read_alone as_descriptor os d = Returns (false, "", "", 0)) diskNumbers →
  ∀ (sz : Z) σ, ∃ σ',
    try_disks as_descriptor os diskNumbers
      {| serialNumber := ""; model := ""; size := sz |} σ
    = Returns ({| serialNumber := ""; model := ""; size := sz |}, σ').
Proof.
  induction 1 as [| d rest Hd _ IH]; intros sz σ; simpl; [by eexists |].
  destruct (read_stores_nothing d sz σ Hd) as (σ1 & Hread).
  unfold mbind, M_bind. rewrite Hread. simpl. apply IH.
Qed.

(** Failing reads, then a successful one: the loop ends there with that
    disk's size, and nothing after it is opened. *)
Lemma try_disks_stops_at_success (pre post : list Z) (d : Z) (s mdl : string) (z : Z) :
  Forall (λ d, read_ok as_descriptor os d = Returns false) pre →
  read_alone as_descriptor os d = Returns (true, s, mdl, z) →
  ∀ (this : DiskPropertiesFetcher) σ, ∃ f σ',
    try_disks as_descriptor os (pre ++ d :: post) this σ = Returns (f, σ')
    ∧ size f = z
    ∧ opened σ' = opened σ ++ map device_path (pre ++ [d]).
Proof.
  intros Hpre Hd.
  induction Hpre as [| d0 rest Hd0 _ IH]; intros this σ; simpl.
  - destruct (read_success_size d s mdl z (serialNumber this) (model this)
                (size this) σ Hd) as (sn' & m' & σ1 & Hread).
    unfold mbind, M_bind. rewrite Hread. simpl.
    apply GetDiskProperties_frame in Hread as [_ Ho]. by eexists _, _.
  - destruct (read_ok_any d0 false (serialNumber this) (model this) (size this) σ Hd0)
      as (sn' & m' & sz' & σ1 & Hread).
    unfold mbind, M_bind. rewrite Hread. simpl.
    destruct (IH {| serialNumber := sn'; model := m'; size := sz' |} σ1)
      as (f & σ' & -> & Hsize & Hopened).
    apply GetDiskProperties_frame in Hread as [_ Ho].
    eexists _, _. split; [reflexivity |]. split; [exact Hsize |].
    rewrite Hopened, Ho, <- app_assoc. reflexivity.
Qed.

(** Failing reads, then a successful one whose descriptor carries both
    strings: its result is adopted, and nothing after it is opened. *)
Lemma try_disks_first_success (pre post : list Z) (d : Z) (s mdl : string) (z : Z) :
  Forall (λ d, read_ok as_descriptor os d = Returns false) pre →
  read_alone as_descriptor os d = Returns (true, s, mdl, z) →
  carries_both_strings as_descriptor os d = true →
  ∀ (this : DiskPropertiesFetcher) σ, ∃ σ',
    try_disks as_descriptor os (pre ++ d :: post) this σ
    = Returns ({| serialNumber := s; model := mdl; size := z |}, σ')
    ∧ opened σ' = opened σ ++ map device_path (pre ++ [d]).
Proof.
  intros Hpre Hd Hboth.
  induction Hpre as [| d0 rest Hd0 _ IH]; intros this σ; simpl.
  - destruct (read_overwrites d s mdl z (serialNumber this) (model this)
                (size this) σ Hd Hboth) as (σ1 & Hread).
    unfold mbind, M_bind. rewrite Hread. simpl.
    apply GetDiskProperties_frame in Hread as [_ Ho]. by eexists.
  - destruct (read_ok_any d0 false (serialNumber this) (model this) (size this) σ Hd0)
      as (sn' & m' & sz' & σ1 & Hread).
    unfold mbind, M_bind. rewrite Hread. simpl.
    destruct (IH {| serialNumber := sn'; model := m'; size := sz' |} σ1)
      as (σ' & -> & Hopened).
    apply GetDiskProperties_frame in Hread as [_ Ho].
    eexists. split; [reflexivity |].
    rewrite Hopened, Ho, <- app_assoc. reflexivity.
Qed.

(** ** The constructor *)

Lemma fetch_state_free volumePath σ1 σ2 :
  fetched (fetch as_descriptor os volumePath σ1)
  = fetched (fetch as_descriptor os volumePath σ2).
Proof.
  unfold fetched, fetch, mbind, M_bind. rewrite !GetVolumeDiskExtents_eq.
  destruct (os_open os volumePath) as [e | dev]; simpl; [reflexivity |].
  destruct (IOCTL_VOLUME_GET_VOLUME_DISK_EXTENTS ANYSIZE_ARRAY dev)
    as [e | diskExtents]; simpl; [reflexivity |].
  apply try_disks_state_free.
Qed.

Lemma fetch_frame volumePath σ :
  releases σ (fetch as_descriptor os volumePath σ).
Proof.
  unfold fetch, mbind, M_bind.
  destruct (GetVolumeDiskExtents_resolved volumePath σ)
    as (ok & σ1 & -> & _ & Hh & _).
  destruct ok; simpl; [| exact Hh].
  pose proof (try_disks_frame (resolved os volumePath)
                {| serialNumber := ""; model := ""; size := 0 |} σ1) as Hloop.
  destruct (try_disks _ _ _ _ σ1) as [[f σ2] | i]; simpl in *; congruence.
Qed.

(** A serial number that runs to the end of the buffer without a
    terminator: the read stops on the byte after the buffer, whatever the
    stub and the platform. *)
Lemma GetDiskProperties_unterminated_serial diskNumber (sn m : string) (sz : Z) σ
    dev written :
  os_open os (device_path diskNumber) = Answered dev →
  storage_property dev = Answered written →
  let buffer := fill_buffer written in
  let offset := SerialNumberOffset (as_descriptor buffer) in
  offset ≠ 0%N → (offset ≤ sizeof_buffer)%N →
  Forall (λ c, c ≠ Ascii.zero) (drop (N.to_nat offset) buffer) →
  GetDiskProperties as_descriptor os diskNumber sn m sz σ = ReadsOutside sizeof_buffer.
Proof.
  intros Hopen Hprop buffer offset Hoff Hle Hrest.
  rewrite GetDiskProperties_eq. cbv zeta. rewrite Hopen, Hprop.
  unfold field at 1. fold buffer. fold offset. rewrite decide_True by exact Hoff.
  rewrite read_field_unterminated; [reflexivity | apply length_fill_buffer | done..].
Qed.

(** ** The claims *)

(** C2, as the code has it: when the volume does not resolve, or every
    resolved index's property read fails, the constructor returns (nothing
    is raised) and the size is 0; the serial number and the model are empty
    too provided no failing read had stored a string, as is the case when
    each read fails at the device open or at the property request. *)
Theorem fetch_nothing_obtained volumePath σ :
  Forall (λ d, read_ok as_descriptor os d = Returns false) (resolved os volumePath) →
  ∃ f σ',
    fetch as_descriptor os volumePath σ = Returns (f, σ')
    ∧ size f = 0 ∧ DiskSize f = 0%N
    ∧ (Forall (λ d, read_alone as_descriptor os d = Returns (false, "", "", 0))
              (resolved os volumePath) →
       accessors f = ("", "", 0%N)).
Proof.
  intros Hfail. unfold fetch, mbind, M_bind.
  destruct (GetVolumeDiskExtents_resolved volumePath σ)
    as (ok & σ1 & -> & Hnil & _ & _).
  destruct ok; simpl.
  - destruct (try_disks_all_fail _ Hfail
                {| serialNumber := ""; model := ""; size := 0 |} σ1)
      as (f & σ' & Hloop & Hsize & _).
    exists f, σ'. simpl in Hsize.
    split; [exact Hloop |]. split; [exact Hsize |].
    split; [unfold DiskSize; rewrite Hsize; reflexivity |].
    intros Hnothing.
    destruct (try_disks_store_nothing _ Hnothing 0 σ1) as (σ'' & Hloop').
    rewrite Hloop in Hloop'. by simplify_eq.
  - eexists _, _. done.
Qed.

(** When the serial-number offset of the descriptor is 0 the property read
    does not assign the serial number: it comes back as it went in. *)
Lemma absent_serial_is_left_alone diskNumber (sn m : string) (sz : Z) σ
    dev written r σ' :
  os_open os (device_path diskNumber) = Answered dev →
  storage_property dev = Answered written →
  SerialNumberOffset (as_descriptor (fill_buffer written)) = 0%N →
  GetDiskProperties as_descriptor os diskNumber sn m sz σ = Returns (r, σ') →
  r.1.1.2 = sn.
Proof.
  intros Hopen Hprop Hoff. rewrite GetDiskProperties_eq. cbv zeta.
  rewrite Hopen, Hprop, Hoff. unfold field at 1. simpl.
  destruct (field _ _ m) as [m' | i]; [| done].
  destruct (drive_geometry dev); intros; by simplify_eq.
Qed.

(** C3: when the descriptor of the disk the constructor reads has
    serial-number offset 0, the serial number the fetcher ends with is the
    empty string, whatever the buffer holds at byte 0 and whether or not
    the read then succeeds: the read leaves the member alone, and the
    member is still the [""] it was initialised to, the resolver handing
    over at most one disk.  The constructor does return, unless the scan
    for the model leaves the buffer. *)
Theorem absent_serial_is_fetched_empty volumePath σ d dev written :
  d ∈ resolved os volumePath →
  os_open os (device_path d) = Answered dev →
  storage_property dev = Answered written →
  SerialNumberOffset (as_descriptor (fill_buffer written)) = 0%N →
  (∀ f σ', fetch as_descriptor os volumePath σ = Returns (f, σ') →
           DiskSerialNumber f = "")
  ∧ (ProductIdOffset (as_descriptor (fill_buffer written)) = 0%N
     ∨ (∃ s, string_at (fill_buffer written)
               (ProductIdOffset (as_descriptor (fill_buffer written))) s) →
     ∃ f σ', fetch as_descriptor os volumePath σ = Returns (f, σ')
             ∧ DiskSerialNumber f = "").
Proof.
  intros Hd Hopen Hprop Hoff.
  pose proof (resolved_at_most_one volumePath) as Hone.
  unfold fetch, mbind, M_bind.
  destruct (GetVolumeDiskExtents_resolved volumePath σ)
    as (ok & σ1 & -> & Hnil & _ & _).
  destruct (resolved os volumePath) as [| d0 [| d1 rest]] eqn:Hres;
    [by apply elem_of_nil in Hd | | simpl in Hone; lia].
  apply list_elem_of_singleton in Hd as <-.
  destruct ok; [| by specialize (Hnil eq_refl)].
  simpl. unfold mbind, M_bind.
  split.
  - intros f σ'.
    destruct (GetDiskProperties _ _ d _ _ _ σ1) as [[r σ2] | i] eqn:Hread; [| done].
    apply (absent_serial_is_left_alone _ _ _ _ _ _ _ _ _ Hopen Hprop Hoff) in Hread.
    destruct r as [[[[] sn'] m'] sz']; simpl in *; intros [= <- _]; exact Hread.
  - intros Hmodel.
    assert (∃ r σ2, GetDiskProperties as_descriptor os d "" "" 0 σ1 = Returns (r, σ2))
      as (r & σ2 & Hread).
    { rewrite GetDiskProperties_eq. cbv zeta. rewrite Hopen, Hprop, Hoff.
      unfold field at 1. simpl.
      assert (∃ m', field (fill_buffer written)
                      (ProductIdOffset (as_descriptor (fill_buffer written))) ""
                    = Returns m') as [m' ->].
      { unfold field. destruct Hmodel as [-> | [mdl Hmdl]]; [by eexists |].
        exists mdl. rewrite decide_True by apply Hmdl.
        apply read_field_string_at; [rewrite length_fill_buffer; lia | exact Hmdl]. }
      destruct (drive_geometry dev); by eexists _, _. }
    rewrite Hread.
    apply (absent_serial_is_left_alone _ _ _ _ _ _ _ _ _ Hopen Hprop Hoff) in Hread.
    destruct r as [[[[] sn'] m'] sz']; simpl in *; by eexists _, _.
Qed.


(** An answer that fits the variable the code passes (at most one extent)
    is appended to the vector, in order, each number converted to [int]. *)
Lemma resolver_appends_extents_that_fit volumePath (diskNumbers : list Z) σ
    vol (Extents : list DISK_EXTENT) :
  os_open os volumePath = Answered vol →
  volume_disk_extents vol = Answered Extents →
  (length Extents ≤ ANYSIZE_ARRAY)%nat →
  GetVolumeDiskExtents os volumePath diskNumbers σ
  = Returns ((true, diskNumbers ++ map (λ e, int_of_DWORD (DiskNumber e)) Extents),
             log_open volumePath σ).
Proof.
  intros Hopen Hext Hfit. rewrite GetVolumeDiskExtents_eq, Hopen.
  rewrite (proj2 (extents_answered _ _ _) (conj Hext Hfit)).
  by rewrite push_disk_numbers_app.
Qed.

(** A volume with more extents makes the resolver return [false] with the
    vector as it was, after one diagnostic with [ERROR_MORE_DATA]. *)
Lemma resolver_fails_on_more_extents volumePath (diskNumbers : list Z) σ
    vol (Extents : list DISK_EXTENT) :
  os_open os volumePath = Answered vol →
  volume_disk_extents vol = Answered Extents →
  (ANYSIZE_ARRAY < length Extents)%nat →
  GetVolumeDiskExtents os volumePath diskNumbers σ
  = Returns ((false, diskNumbers),
             failed_call volumePath "Failed to get volume disk extents. Error: "
               ERROR_MORE_DATA σ).
Proof.
  intros Hopen Hext Hmore. rewrite GetVolumeDiskExtents_eq, Hopen.
  by rewrite (extents_more_data _ _ _ Hext Hmore).
Qed.

(** The constructor on such a volume tries no disk: it opens the volume
    only and the fetcher stays as it was initialised. *)
Lemma fetch_fails_on_more_extents volumePath σ vol (Extents : list DISK_EXTENT) :
  os_open os volumePath = Answered vol →
  volume_disk_extents vol = Answered Extents →
  (ANYSIZE_ARRAY < length Extents)%nat →
  fetch as_descriptor os volumePath σ
  = Returns ({| serialNumber := ""; model := ""; size := 0 |},
             failed_call volumePath "Failed to get volume disk extents. Error: "
               ERROR_MORE_DATA σ).
Proof.
  intros Hopen Hext Hmore. unfold fetch, mbind, M_bind.
  by rewrite (resolver_fails_on_more_extents _ _ _ _ _ Hopen Hext Hmore).
Qed.

(** C7: the resolver always returns, and with the table of open handles as
    it found it; the property reader, whenever it returns (success, device
    not opened, property request failed, geometry request failed), leaves
    the table as it found it, and it returns unless a scan has read a byte
    past the buffer. *)
Theorem handles_are_released :
  (∀ volumePath (diskNumbers : list Z) σ, ∃ r σ',
      GetVolumeDiskExtents os volumePath diskNumbers σ = Returns (r, σ')
      ∧ handles σ' = handles σ)
  ∧ (∀ diskNumber (sn m : string) (sz : Z) σ,
      releases σ (GetDiskProperties as_descriptor os diskNumber sn m sz σ)).
Proof.
  split.
  - intros volumePath diskNumbers σ. rewrite GetVolumeDiskExtents_eq.
    destruct (os_open os volumePath) as [e | dev]; [by eexists _, _ |].
    destruct (IOCTL_VOLUME_GET_VOLUME_DISK_EXTENTS ANYSIZE_ARRAY dev);
      by eexists _, _.
  - intros diskNumber sn m sz σ.
    destruct (GetDiskProperties _ _ _ _ _ _ σ) as [[r σ'] | i] eqn:Hread;
      [| by apply GetDiskProperties_outside in Hread].
    apply GetDiskProperties_frame in Hread as [Hh _]. exact Hh.
Qed.

(** C8, as the code has it: after a successful geometry query the size is
    the product of the four fields in signed 64-bit arithmetic, hence the
    product itself whenever that fits; for (1000, 255, 63, 512) it is
    8225280000 and the accessor gives 7. *)
Theorem size_is_signed_product diskNumber disk dg (sn m : string) (sz : Z) σ
    (sn' m' : string) (sz' : Z) σ' :
  os_open os (device_path diskNumber) = Answered disk →
  drive_geometry disk = Answered dg →
  GetDiskProperties as_descriptor os diskNumber sn m sz σ
  = Returns ((true, sn', m', sz'), σ') →
  sz' = wrap64 (configured_bytes dg)
  ∧ (- 2 ^ 63 ≤ configured_bytes dg < 2 ^ 63 → sz' = configured_bytes dg)
  ∧ (dg = geometry_8GB →
     sz' = 1000 * 255 * 63 * 512
     ∧ DiskSize {| serialNumber := sn'; model := m'; size := sz' |} = 7%N).
Proof.
  intros Hopen Hgeo. rewrite GetDiskProperties_eq. cbv zeta. rewrite Hopen.
  destruct (storage_property disk) as [e | written]; [done |].
  destruct (field _ _ sn) as [sn1 | i]; [| done].
  destruct (field _ _ m) as [m1 | i]; [| done].
  rewrite Hgeo. intros [= <- <- <-].
  split; [apply size_in_bytes_wrap |].
  split; [apply size_in_bytes_exact |].
  intros ->. by vm_compute.
Qed.

(** C9: what a construction yields does not depend on the state it starts
    in (open handles, last error, what was written or opened before); when
    it returns it has left no handle open; two constructions in a row
    yield what each yields on its own; and on the same volume the accessors
    of the two give the same values, those of a single construction. *)
Theorem fetches_are_independent volumePath1 volumePath2 σ1 σ2 :
  fetched (fetch as_descriptor os volumePath1 σ1)
  = fetched (fetch as_descriptor os volumePath1 σ2)
  ∧ releases σ1 (fetch as_descriptor os volumePath1 σ1)
  ∧ result fst (fetch_twice as_descriptor os volumePath1 volumePath2 σ1)
    = match fetched (fetch as_descriptor os volumePath1 σ1),
            fetched (fetch as_descriptor os volumePath2 σ1) with
      | Returns first, Returns second => Returns (first, second)
      | ReadsOutside i, _ | Returns _, ReadsOutside i => ReadsOutside i
      end
  ∧ result (λ r, (accessors r.1.1, accessors r.1.2))
           (fetch_twice as_descriptor os volumePath1 volumePath1 σ1)
    = result (λ r, (accessors r.1, accessors r.1))
             (fetch as_descriptor os volumePath1 σ1).
Proof.
  split; [apply fetch_state_free |]. split; [apply fetch_frame |].
  unfold fetch_twice, mbind, M_bind.
  destruct (fetch _ _ volumePath1 σ1) as [[first σ] | i] eqn:Hfirst; [| done].
  simpl. split.
  - rewrite (fetch_state_free volumePath2 σ1 σ).
    by destruct (fetch _ _ volumePath2 σ) as [[second σ'] | i].
  - pose proof (fetch_state_free volumePath1 σ1 σ) as Hsame.
    rewrite Hfirst in Hsame.
    destruct (fetch _ _ volumePath1 σ) as [[second σ'] | i];
      simpl in Hsame; by simplify_eq.
Qed.

(** C10: a call of [GetDiskProperties] that returns [false] hands [size]
    back as it received it; one that returns [true] has had its geometry
    request answered and hands back the size computed from the answer. *)
Theorem size_assigned_only_on_success diskNumber (sn m : string) (sz : Z) σ
    (ok : bool) (sn' m' : string) (sz' : Z) σ' :
  GetDiskProperties as_descriptor os diskNumber sn m sz σ
  = Returns ((ok, sn', m', sz'), σ') →
  if ok
  then ∃ disk dg, os_open os (device_path diskNumber) = Answered disk
                  ∧ drive_geometry disk = Answered dg
                  ∧ sz' = size_in_bytes dg
  else sz' = sz.
Proof.
  rewrite GetDiskProperties_eq. cbv zeta.
  destruct (os_open os (device_path diskNumber)) as [e | dev];
    [intros; by simplify_eq |].
  destruct (storage_property dev) as [e | written]; [intros; by simplify_eq |].
  destruct (field _ _ sn) as [sn1 | i]; [| done].
  destruct (field _ _ m) as [m1 | i]; [| done].
  destruct (drive_geometry dev) as [e | dg] eqn:Hgeo; intros; simplify_eq; simpl;
    eauto.
Qed.

End Properties.

(** * The stubs, evaluated *)

(** C1: the code misses the claim.  The descriptor of [os_unterminated]
    fills the 1024-byte buffer, gives serial-number offset 1020 and has no
    zero byte from there to the end of the buffer; the scan reads
    [buffer[1024]], and so do [GetDiskProperties] and the constructor. *)
Theorem unterminated_serial_is_read_past_the_buffer :
  length (fill_buffer blob_unterminated) = 1024%nat
  ∧ SerialNumberOffset (sdk_descriptor (fill_buffer blob_unterminated)) = 1020%N
  ∧ drop 1020 (fill_buffer blob_unterminated) = String.list_ascii_of_string "ABCD"
  ∧ GetDiskProperties sdk_descriptor os_unterminated 0 "" "" 0 initial_state
    = ReadsOutside 1024
  ∧ fetch sdk_descriptor os_unterminated "\\.\C:" initial_state = ReadsOutside 1024.
Proof. repeat split; evaluated. Qed.

(** C2 refuted: on [os_geometry_fails] the only read fails and the fetcher
    nevertheless reports the serial number and model of that disk. *)
Lemma geometry_failure_keeps_strings :
  ¬ nothing_obtained_leaves_empty sdk_descriptor os_geometry_fails "\\.\C:".
Proof.
  intros Hclaim.
  destruct (Hclaim ltac:(all_evaluated) initial_state) as (f & σ' & Hf & Hacc).
  vm_compute in Hf. injection Hf as <- _. vm_compute in Hacc. discriminate Hacc.
Qed.

Lemma fetch_nothing_obtained_witness :
  Forall (λ d, read_ok sdk_descriptor os_no_disk d = Returns false)
         (resolved os_no_disk "\\.\C:")
  ∧ ∃ f σ',
      fetch sdk_descriptor os_no_disk "\\.\C:" initial_state = Returns (f, σ')
      ∧ size f = 0 ∧ DiskSize f = 0%N
      ∧ (Forall (λ d, read_alone sdk_descriptor os_no_disk d = Returns (false, "", "", 0))
                (resolved os_no_disk "\\.\C:") →
         accessors f = ("", "", 0%N)).
Proof.
  assert (Hfail : Forall (λ d, read_ok sdk_descriptor os_no_disk d = Returns false)
                         (resolved os_no_disk "\\.\C:")) by all_evaluated.
  split; [exact Hfail |].
  exact (fetch_nothing_obtained sdk_descriptor os_no_disk "\\.\C:" initial_state Hfail).
Defined.

Lemma absent_serial_is_fetched_empty_witness :
  (0 ∈ resolved os_no_serial "\\.\C:"
   ∧ os_open os_no_serial (device_path 0)
     = Answered (a_disk (Answered blob_no_serial) (Answered geometry_8GB))
   ∧ SerialNumberOffset (sdk_descriptor (fill_buffer blob_no_serial)) = 0%N
   ∧ take 17 (fill_buffer blob_no_serial)
     = String.list_ascii_of_string "XXXXXXXXXXXXXXXX$"
   ∧ fetch sdk_descriptor os_no_serial "\\.\C:" initial_state
     = Returns ({| serialNumber := ""; model := "ACME SSD"; size := 8225280000 |},
                log_open (device_path 0) (log_open "\\.\C:" initial_state)))
  ∧ (∀ f σ', fetch sdk_descriptor os_no_serial "\\.\C:" initial_state = Returns (f, σ') →
             DiskSerialNumber f = "")
  ∧ (ProductIdOffset (sdk_descriptor (fill_buffer blob_no_serial)) = 0%N
     ∨ (∃ s, string_at (fill_buffer blob_no_serial)
               (ProductIdOffset (sdk_descriptor (fill_buffer blob_no_serial))) s) →
     ∃ f σ', fetch sdk_descriptor os_no_serial "\\.\C:" initial_state = Returns (f, σ')
             ∧ DiskSerialNumber f = "").
Proof.
  assert (Hd : 0 ∈ resolved os_no_serial "\\.\C:")
    by (replace (resolved os_no_serial "\\.\C:") with [0] by evaluated; constructor).
  assert (Hopen : os_open os_no_serial (device_path 0)
                  = Answered (a_disk (Answered blob_no_serial) (Answered geometry_8GB)))
    by evaluated.
  assert (Hoff : SerialNumberOffset (sdk_descriptor (fill_buffer blob_no_serial)) = 0%N)
    by evaluated.
  split; [repeat split; first [assumption | evaluated] |].
  exact (absent_serial_is_fetched_empty sdk_descriptor os_no_serial "\\.\C:"
           initial_state 0 _ blob_no_serial Hd Hopen eq_refl Hoff).
Defined.



(** C5: the code misses the claim.  The volume of [os_second_disk] has two
    extents, on disks 0 and 1; the read of disk 0 fails and that of disk 1
    succeeds.  The extent request does not fit the one-extent variable,
    the resolver returns [false], and the constructor tries no disk: it
    opens the volume only and ends with empty strings and size 0. *)
Theorem second_disk_is_never_tried :
  os_open os_second_disk "\\.\C:" = Answered (a_volume [0; 1]%N)
  ∧ read_ok sdk_descriptor os_second_disk 0 = Returns false
  ∧ read_alone sdk_descriptor os_second_disk 1
    = Returns (true, "WD-1234", "ACME SSD", 8225280000)
  ∧ fetch sdk_descriptor os_second_disk "\\.\C:" initial_state
    = Returns ({| serialNumber := ""; model := ""; size := 0 |},
               failed_call "\\.\C:" "Failed to get volume disk extents. Error: "
                 ERROR_MORE_DATA initial_state)
  ∧ opened (failed_call "\\.\C:" "Failed to get volume disk extents. Error: "
              ERROR_MORE_DATA initial_state)
    = ["\\.\C:"].
Proof. repeat split; evaluated. Qed.

(** C6: the code misses the claim.  The volume of [os_repeated_extents] has
    three extents, on disks 1, 0 and 1.  The request is made with room for
    one extent and fails with [ERROR_MORE_DATA]; the resolver returns
    [false] and appends nothing. *)
Theorem resolver_fails_beyond_one_extent :
  os_open os_repeated_extents "\\.\C:" = Answered (a_volume [1; 0; 1]%N)
  ∧ GetVolumeDiskExtents os_repeated_extents "\\.\C:" [7] initial_state
    = Returns ((false, [7]),
               failed_call "\\.\C:" "Failed to get volume disk extents. Error: "
                 ERROR_MORE_DATA initial_state)
  ∧ cerr (failed_call "\\.\C:" "Failed to get volume disk extents. Error: "
            ERROR_MORE_DATA initial_state)
    = ["Failed to get volume disk extents. Error: 234"].
Proof. repeat split; evaluated. Qed.

(** C8 refuted: on [os_8EiB] the four fields multiply to 2^63; the size the
    code stores is negative, which no unsigned product is. *)
Lemma product_of_2_63_bytes_is_negative :
  ¬ size_is_unsigned_product sdk_descriptor os_8EiB 0.
Proof.
  intros Hclaim.
  edestruct (Hclaim (a_disk (Answered blob_acme) (Answered geometry_8EiB)) geometry_8EiB
               "" "" 0 initial_state "WD-1234" "ACME SSD" (-9223372036854775808))
    as (width & Hwidth & Hsize); [evaluated.. |].
  assert (0 < 2 ^ width) by (apply Z.pow_pos_nonneg; lia).
  pose proof (Z.mod_pos_bound (configured_bytes geometry_8EiB) (2 ^ width)). lia.
Qed.

Lemma size_is_signed_product_witness :
  (os_open os_single (device_path 0)
   = Answered (a_disk (Answered blob_acme) (Answered geometry_8GB))
   ∧ GetDiskProperties sdk_descriptor os_single 0 "" "" 0 initial_state
     = Returns ((true, "WD-1234", "ACME SSD", 8225280000),
                log_open (device_path 0) initial_state))
  ∧ 8225280000 = wrap64 (configured_bytes geometry_8GB)
  ∧ (- 2 ^ 63 ≤ configured_bytes geometry_8GB < 2 ^ 63 →
     8225280000 = configured_bytes geometry_8GB)
  ∧ (geometry_8GB = geometry_8GB →
     8225280000 = 1000 * 255 * 63 * 512
     ∧ DiskSize {| serialNumber := "WD-1234"; model := "ACME SSD"; size := 8225280000 |}
       = 7%N).
Proof.
  assert (Hopen : os_open os_single (device_path 0)
                  = Answered (a_disk (Answered blob_acme) (Answered geometry_8GB)))
    by evaluated.
  assert (Hread : GetDiskProperties sdk_descriptor os_single 0 "" "" 0 initial_state
                  = Returns ((true, "WD-1234", "ACME SSD", 8225280000),
                             log_open (device_path 0) initial_state))
    by evaluated.
  split; [done |].
  exact (size_is_signed_product sdk_descriptor os_single 0 _ geometry_8GB
           "" "" 0 initial_state _ _ _ _ Hopen eq_refl Hread).
Defined.

Lemma size_assigned_only_on_success_witness :
  GetDiskProperties sdk_descriptor os_geometry_fails 0 "" "" 77 initial_state
  = Returns ((false, "OLD-0001", "OLD DISK", 77),
             failed_call (device_path 0) "Failed to get disk geometry. Error: "
               ERROR_GEN_FAILURE initial_state)
  ∧ 77 = 77.
Proof.
  assert (Hread : GetDiskProperties sdk_descriptor os_geometry_fails 0 "" "" 77
                    initial_state
                  = Returns ((false, "OLD-0001", "OLD DISK", 77),
                             failed_call (device_path 0)
                               "Failed to get disk geometry. Error: "
                               ERROR_GEN_FAILURE initial_state))
    by evaluated.
  split; [exact Hread |].
  exact (size_assigned_only_on_success sdk_descriptor os_geometry_fails 0 "" "" 77
           initial_state false _ _ _ _ Hread).
Defined.

(** * Further properties of the code *)

(** ** Integers and paths *)

Lemma int_of_DWORD_range (d : N) : - 2 ^ 31 ≤ int_of_DWORD d < 2 ^ 31.
Proof.
  unfold int_of_DWORD.
  pose proof (Z.mod_pos_bound (Z.of_N d + 2 ^ 31) (2 ^ 32)). lia.
Qed.

Lemma int_of_DWORD_congr (d : N) :
  int_of_DWORD d mod 2 ^ 32 = Z.of_N d mod 2 ^ 32.
Proof.
  unfold int_of_DWORD. rewrite Zminus_mod_idemp_l. f_equal. lia.
Qed.

Lemma int_of_DWORD_high (d : N) :
  (2 ^ 31 ≤ d < 2 ^ 32)%N → int_of_DWORD d = Z.of_N d - 2 ^ 32.
Proof.
  intros H. unfold int_of_DWORD.
  replace (Z.of_N d + 2 ^ 31) with (Z.of_N d - 2 ^ 31 + 1 * 2 ^ 32) by lia.
  rewrite Z.mod_add, Z.mod_small; lia.
Qed.

Lemma length_list_ascii_of_string (s : string) :
  length (String.list_ascii_of_string s) = String.length s.
Proof. induction s as [| c s IH]; simpl; congruence. Qed.

(** Distinct disk numbers are opened under distinct device paths. *)
Theorem device_path_inj (d1 d2 : Z) : device_path d1 = device_path d2 → d1 = d2.
Proof.
  unfold device_path, to_wstring. intros H. simpl in H.
  apply (inj pretty). by simplify_eq.
Qed.

Lemma device_path_inj_witness :
  device_path 7 = device_path 7 ∧ 7 = 7.
Proof.
  split; [reflexivity |]. exact (device_path_inj 7 7 eq_refl).
Defined.

(** A disk number with its top bit set reaches [std::to_wstring] as a
    negative [int]: the device path carries a minus sign. *)
Theorem device_path_of_high_disk_number (d : N) :
  (2 ^ 31 ≤ d < 2 ^ 32)%N →
  device_path (int_of_DWORD d)
  = "\\.\PhysicalDrive-" +:+ pretty (2 ^ 32 - d)%N.
Proof.
  intros H. rewrite int_of_DWORD_high by exact H.
  unfold device_path, to_wstring.
  destruct (Z.of_N d - 2 ^ 32) as [| p | p] eqn:Hz; [lia | lia |].
  replace (2 ^ 32 - d)%N with (N.pos p) by lia.
  reflexivity.
Qed.

Lemma device_path_of_high_disk_number_witness :
  (2 ^ 31 ≤ 4294967295 < 2 ^ 32)%N
  ∧ device_path (int_of_DWORD 4294967295) = "\\.\PhysicalDrive-1".
Proof.
  assert (H : (2 ^ 31 ≤ 4294967295 < 2 ^ 32)%N) by (vm_compute; split; congruence).
  split; [exact H |].
  exact (device_path_of_high_disk_number 4294967295 H).
Defined.

Section FurtherProperties.

Variable as_descriptor : list BYTE → STORAGE_DEVICE_DESCRIPTOR.
Variable os : OS.

Implicit Types (σ : OSState) (path volumePath : string) (diskNumber : Z).

(** ** The resolver *)

(** The resolver never drops or reorders what the vector already held: the
    vector it hands back starts with the one it was given, and is that
    vector unchanged when it returns [false]. *)
Theorem resolver_extends_vector volumePath (diskNumbers : list Z) σ :
  ∃ (ok : bool) (new : list Z) σ',
    GetVolumeDiskExtents os volumePath diskNumbers σ
    = Returns ((ok, diskNumbers ++ new), σ')
    ∧ (ok = false → new = [])
    ∧ Forall (λ z, - 2 ^ 31 ≤ z < 2 ^ 31) new.
Proof.
  rewrite GetVolumeDiskExtents_eq.
  destruct (os_open os volumePath) as [e | dev].
  { exists false, []. eexists. by rewrite app_nil_r. }
  destruct (IOCTL_VOLUME_GET_VOLUME_DISK_EXTENTS ANYSIZE_ARRAY dev) as [e | Extents].
  { exists false, []. eexists. by rewrite app_nil_r. }
  exists true, (map (λ e, int_of_DWORD (DiskNumber e)) Extents). eexists.
  rewrite push_disk_numbers_app. split; [reflexivity |]. split; [done |].
  apply Forall_map, Forall_forall. intros e _. apply int_of_DWORD_range.
Qed.

(** The resolver writes to [std::cerr] exactly when it returns [false]: one
    line, naming the step that failed and carrying the error code of that
    very failure ([ERROR_MORE_DATA] when the volume has more extents than
    the variable holds).  A successful call writes nothing. *)
Theorem resolver_reports_its_failure volumePath (diskNumbers : list Z) σ :
  ∃ (ok : bool) (v : list Z) σ',
    GetVolumeDiskExtents os volumePath diskNumbers σ = Returns ((ok, v), σ')
    ∧ match os_open os volumePath with
      | Failed e =>
          ok = false
          ∧ cerr σ' = cerr σ ++ ["Failed to open volume. Error: " +:+ pretty e]
      | Answered dev =>
          match volume_disk_extents dev with
          | Failed e =>
              ok = false
              ∧ cerr σ' = cerr σ
                          ++ ["Failed to get volume disk extents. Error: " +:+ pretty e]
          | Answered Extents =>
              if decide (length Extents ≤ ANYSIZE_ARRAY)%nat
              then ok = true ∧ cerr σ' = cerr σ
              else ok = false
                   ∧ cerr σ' = cerr σ
                               ++ ["Failed to get volume disk extents. Error: "
                                   +:+ pretty ERROR_MORE_DATA]
          end
      end.
Proof.
  rewrite GetVolumeDiskExtents_eq.
  destruct (os_open os volumePath) as [e | dev]; [by eexists _, _, _ |].
  unfold IOCTL_VOLUME_GET_VOLUME_DISK_EXTENTS.
  destruct (volume_disk_extents dev) as [e | Extents]; [by eexists _, _, _ |].
  case_decide; by eexists _, _, _.
Qed.

(** The resolver does not clear the vector: called twice on the same
    vector and a volume whose extents fit, it leaves the disk numbers there
    twice. *)
Theorem resolver_twice_appends_twice volumePath (diskNumbers : list Z) σ
    vol (Extents : list DISK_EXTENT) :
  os_open os volumePath = Answered vol →
  volume_disk_extents vol = Answered Extents →
  (length Extents ≤ ANYSIZE_ARRAY)%nat →
  result fst (resolve_twice os volumePath diskNumbers σ)
  = Returns (true,
             diskNumbers
             ++ map (λ e, int_of_DWORD (DiskNumber e)) Extents
             ++ map (λ e, int_of_DWORD (DiskNumber e)) Extents).
Proof.
  intros Hopen Hext Hfit. unfold resolve_twice, mbind, M_bind.
  rewrite (resolver_appends_extents_that_fit os _ _ _ _ _ Hopen Hext Hfit). simpl.
  rewrite (resolver_appends_extents_that_fit os _ _ _ _ _ Hopen Hext Hfit). simpl.
  by rewrite <- app_assoc.
Qed.

End FurtherProperties.

Lemma resolver_twice_appends_twice_witness :
  (os_open os_single "\\.\C:" = Answered (a_volume [0]%N)
   ∧ (length [{| DiskNumber := 0; StartingOffset := 1048576;
                 ExtentLength := 1073741824 |}] ≤ ANYSIZE_ARRAY)%nat)
  ∧ result fst (resolve_twice os_single "\\.\C:" [7] initial_state)
    = Returns (true, [7; 0; 0]).
Proof.
  assert (Hopen : os_open os_single "\\.\C:" = Answered (a_volume [0]%N)) by evaluated.
  assert (Hfit : (length [{| DiskNumber := 0; StartingOffset := 1048576;
                             ExtentLength := 1073741824 |}] ≤ ANYSIZE_ARRAY)%nat)
    by (vm_compute; lia).
  split; [done |].
  exact (resolver_twice_appends_twice os_single "\\.\C:" [7] initial_state
           (a_volume [0]%N) _ Hopen eq_refl Hfit).
Defined.

Section FurtherReader.

Variable as_descriptor : list BYTE → STORAGE_DEVICE_DESCRIPTOR.
Variable os : OS.

Implicit Types (σ : OSState) (path volumePath : string) (diskNumber : Z).

(** ** The property reader *)

(** A field comes back from the buffer exactly when it is absent or lies
    terminated in the buffer. *)
Lemma field_returns_iff (buffer : list BYTE) (offset : N) (old : string) :
  length buffer = N.to_nat sizeof_buffer →
  (∃ s, field buffer offset old = Returns s)
  ↔ (offset = 0%N ∨ ∃ s, string_at buffer offset s).
Proof.
  intros Hlen. unfold field. destruct (decide (offset ≠ 0%N)) as [Hnz | Hz].
  - split.
    + intros [s Hs]. right. exists s. by apply read_field_returns.
    + intros [-> | [s Hs]]; [done |]. exists s.
      apply read_field_string_at; [lia | exact Hs].
  - split; [intros _; left; lia | eauto].
Qed.

(** What a field holds once it has been read. *)
Lemma field_value (buffer : list BYTE) (offset : N) (old s : string) :
  length buffer = N.to_nat sizeof_buffer →
  field buffer offset old = Returns s →
  (offset = 0%N ∧ s = old) ∨ string_at buffer offset s.
Proof.
  intros Hlen. unfold field. destruct (decide (offset ≠ 0%N)) as [Hnz | Hz].
  - intros Hs. right. by apply read_field_returns.
  - intros [= <-]. left. split; [lia | done].
Qed.

(** A string in the buffer ends before the buffer does. *)
Lemma string_at_length (buffer : list BYTE) (offset : N) (s : string) :
  length buffer = N.to_nat sizeof_buffer →
  string_at buffer offset s →
  (offset + N.of_nat (String.length s) < sizeof_buffer)%N.
Proof.
  intros Hlen (_ & _ & post & Hdrop).
  apply (f_equal length) in Hdrop.
  rewrite length_drop, length_app, length_list_ascii_of_string in Hdrop.
  simpl in Hdrop. lia.
Qed.

(** For a disk that opens and answers the property request, the reader
    returns (with either verdict) exactly when each of the two strings is
    absent (offset 0) or lies zero-terminated inside the 1024-byte buffer;
    in every other case a scan runs past the buffer. *)
Theorem reader_returns_iff_fields_terminated diskNumber (sn m : string) (sz : Z) σ
    dev written :
  os_open os (device_path diskNumber) = Answered dev →
  storage_property dev = Answered written →
  (∃ r σ', GetDiskProperties as_descriptor os diskNumber sn m sz σ = Returns (r, σ'))
  ↔ ((SerialNumberOffset (as_descriptor (fill_buffer written)) = 0%N
      ∨ ∃ s, string_at (fill_buffer written)
               (SerialNumberOffset (as_descriptor (fill_buffer written))) s)
     ∧ (ProductIdOffset (as_descriptor (fill_buffer written)) = 0%N
        ∨ ∃ s, string_at (fill_buffer written)
                 (ProductIdOffset (as_descriptor (fill_buffer written))) s)).
Proof.
  intros Hopen Hprop. rewrite GetDiskProperties_eq. cbv zeta. rewrite Hopen, Hprop.
  pose proof (length_fill_buffer written) as Hlen.
  rewrite <- (field_returns_iff _ _ sn Hlen), <- (field_returns_iff _ _ m Hlen).
  destruct (field _ (SerialNumberOffset _) sn) as [sn' | i].
  - destruct (field _ (ProductIdOffset _) m) as [m' | j].
    + split; [eauto |]. intros _. destruct (drive_geometry dev); eauto.
    + split; [by intros (r & σ' & ?) | by intros [_ [s ?]]].
  - split; [by intros (r & σ' & ?) | by intros [[s ?] _]].
Qed.

(** When the reader returns, each string it hands back is either the one
    it was given (offset 0) or the bytes of the buffer from the offset up
    to the first zero byte: it holds no zero byte and ends before the
    buffer does. *)
Theorem reader_decodes_fields diskNumber (sn m : string) (sz : Z) σ
    dev written (ok : bool) (sn' m' : string) (sz' : Z) σ' :
  os_open os (device_path diskNumber) = Answered dev →
  storage_property dev = Answered written →
  GetDiskProperties as_descriptor os diskNumber sn m sz σ
  = Returns ((ok, sn', m', sz'), σ') →
  let buffer := fill_buffer written in
  let so := SerialNumberOffset (as_descriptor buffer) in
  let po := ProductIdOffset (as_descriptor buffer) in
  ((so = 0%N ∧ sn' = sn)
   ∨ (string_at buffer so sn' ∧ (so + N.of_nat (String.length sn') < sizeof_buffer)%N))
  ∧ ((po = 0%N ∧ m' = m)
     ∨ (string_at buffer po m' ∧ (po + N.of_nat (String.length m') < sizeof_buffer)%N)).
Proof.
  intros Hopen Hprop. rewrite GetDiskProperties_eq. cbv zeta. rewrite Hopen, Hprop.
  pose proof (length_fill_buffer written) as Hlen.
  destruct (field _ (SerialNumberOffset _) sn) as [sn1 | i] eqn:Hs; [| done].
  destruct (field _ (ProductIdOffset _) m) as [m1 | j] eqn:Hm; [| done].
  intros Hret. cbv zeta.
  assert (sn1 = sn' ∧ m1 = m') as [-> ->]
    by (destruct (drive_geometry dev); by simplify_eq).
  apply field_value in Hs; [| exact Hlen].
  apply field_value in Hm; [| exact Hlen].
  split.
  - destruct Hs as [? | Hs]; [by left | right; eauto using string_at_length].
  - destruct Hm as [? | Hm]; [by left | right; eauto using string_at_length].
Qed.

(** An offset at or past the end of the buffer is followed unchecked: the
    first byte the scan reads is the one at that offset. *)
Theorem offset_past_buffer_is_followed diskNumber (sn m : string) (sz : Z) σ
    dev written :
  os_open os (device_path diskNumber) = Answered dev →
  storage_property dev = Answered written →
  (sizeof_buffer ≤ SerialNumberOffset (as_descriptor (fill_buffer written)))%N →
  GetDiskProperties as_descriptor os diskNumber sn m sz σ
  = ReadsOutside (SerialNumberOffset (as_descriptor (fill_buffer written))).
Proof.
  intros Hopen Hprop Hoff. rewrite GetDiskProperties_eq. cbv zeta.
  rewrite Hopen, Hprop. unfold field at 1.
  rewrite decide_True by (unfold sizeof_buffer in Hoff; lia).
  unfold read_field. rewrite drop_ge by (rewrite length_fill_buffer; lia).
  reflexivity.
Qed.

(** The reader writes to [std::cerr] exactly when it returns [false]: one
    line, naming the step that failed (device open, property request,
    geometry request) and carrying the error code of that very failure.  A
    read that returns [true] writes nothing. *)
Theorem reader_reports_its_failure diskNumber (sn m : string) (sz : Z) σ
    (ok : bool) (sn' m' : string) (sz' : Z) σ' :
  GetDiskProperties as_descriptor os diskNumber sn m sz σ
  = Returns ((ok, sn', m', sz'), σ') →
  match os_open os (device_path diskNumber) with
  | Failed e =>
      ok = false
      ∧ cerr σ' = cerr σ ++ ["Failed to open device. Error: " +:+ pretty e]
  | Answered dev =>
      match storage_property dev with
      | Failed e =>
          ok = false
          ∧ cerr σ' = cerr σ
                      ++ ["Failed to query device properties. Error: " +:+ pretty e]
      | Answered _ =>
          match drive_geometry dev with
          | Failed e =>
              ok = false
              ∧ cerr σ' = cerr σ
                          ++ ["Failed to get disk geometry. Error: " +:+ pretty e]
          | Answered _ => ok = true ∧ cerr σ' = cerr σ
          end
      end
  end.
Proof.
  rewrite GetDiskProperties_eq. cbv zeta.
  destruct (os_open os _) as [e | dev]; [by intros [= <- _ _ _ <-] |].
  destruct (storage_property dev) as [e | written]; [by intros [= <- _ _ _ <-] |].
  destruct (field _ _ sn) as [sn1 | i]; [| done].
  destruct (field _ _ m) as [m1 | j]; [| done].
  destruct (drive_geometry dev) as [e | dg]; by intros [= <- _ _ _ <-].
Qed.

End FurtherReader.

Lemma reader_returns_iff_fields_terminated_witness :
  os_open os_unterminated (device_path 0)
  = Answered (a_disk (Answered blob_unterminated) (Answered geometry_8GB))
  ∧ ((∃ r σ', GetDiskProperties sdk_descriptor os_unterminated 0 "" "" 0 initial_state
              = Returns (r, σ'))
     ↔ ((SerialNumberOffset (sdk_descriptor (fill_buffer blob_unterminated)) = 0%N
         ∨ ∃ s, string_at (fill_buffer blob_unterminated)
                  (SerialNumberOffset (sdk_descriptor (fill_buffer blob_unterminated))) s)
        ∧ (ProductIdOffset (sdk_descriptor (fill_buffer blob_unterminated)) = 0%N
           ∨ ∃ s, string_at (fill_buffer blob_unterminated)
                    (ProductIdOffset (sdk_descriptor (fill_buffer blob_unterminated))) s))).
Proof.
  assert (Hopen : os_open os_unterminated (device_path 0)
                  = Answered (a_disk (Answered blob_unterminated) (Answered geometry_8GB)))
    by evaluated.
  split; [exact Hopen |].
  exact (reader_returns_iff_fields_terminated sdk_descriptor os_unterminated 0 "" "" 0
           initial_state _ blob_unterminated Hopen eq_refl).
Defined.

Lemma reader_decodes_fields_witness :
  (os_open os_single (device_path 0)
   = Answered (a_disk (Answered blob_acme) (Answered geometry_8GB))
   ∧ GetDiskProperties sdk_descriptor os_single 0 "stale" "stale" 0 initial_state
     = Returns ((true, "WD-1234", "ACME SSD", 8225280000),
                log_open (device_path 0) initial_state))
  ∧ ((SerialNumberOffset (sdk_descriptor (fill_buffer blob_acme)) = 0%N
      ∧ "WD-1234" = "stale")
     ∨ (string_at (fill_buffer blob_acme)
          (SerialNumberOffset (sdk_descriptor (fill_buffer blob_acme))) "WD-1234"
        ∧ (SerialNumberOffset (sdk_descriptor (fill_buffer blob_acme))
           + N.of_nat (String.length "WD-1234") < sizeof_buffer)%N))
    ∧ ((ProductIdOffset (sdk_descriptor (fill_buffer blob_acme)) = 0%N
        ∧ "ACME SSD" = "stale")
       ∨ (string_at (fill_buffer blob_acme)
            (ProductIdOffset (sdk_descriptor (fill_buffer blob_acme))) "ACME SSD"
          ∧ (ProductIdOffset (sdk_descriptor (fill_buffer blob_acme))
             + N.of_nat (String.length "ACME SSD") < sizeof_buffer)%N)).
Proof.
  assert (Hopen : os_open os_single (device_path 0)
                  = Answered (a_disk (Answered blob_acme) (Answered geometry_8GB)))
    by evaluated.
  assert (Hread : GetDiskProperties sdk_descriptor os_single 0 "stale" "stale" 0
                    initial_state
                  = Returns ((true, "WD-1234", "ACME SSD", 8225280000),
                             log_open (device_path 0) initial_state))
    by evaluated.
  split; [done |].
  exact (reader_decodes_fields sdk_descriptor os_single 0 "stale" "stale" 0
           initial_state _ blob_acme _ _ _ _ _ Hopen eq_refl Hread).
Defined.

Lemma offset_past_buffer_is_followed_witness :
  (os_open os_wild_offset (device_path 0)
   = Answered (a_disk (Answered blob_wild_offset) (Answered geometry_8GB))
   ∧ SerialNumberOffset (sdk_descriptor (fill_buffer blob_wild_offset)) = 5000%N)
  ∧ GetDiskProperties sdk_descriptor os_wild_offset 0 "" "" 0 initial_state
    = ReadsOutside (SerialNumberOffset (sdk_descriptor (fill_buffer blob_wild_offset))).
Proof.
  assert (Hopen : os_open os_wild_offset (device_path 0)
                  = Answered (a_disk (Answered blob_wild_offset) (Answered geometry_8GB)))
    by evaluated.
  assert (Hoff : SerialNumberOffset (sdk_descriptor (fill_buffer blob_wild_offset))
                 = 5000%N) by evaluated.
  split; [done |].
  apply (offset_past_buffer_is_followed sdk_descriptor os_wild_offset 0 "" "" 0
           initial_state _ blob_wild_offset Hopen eq_refl).
  rewrite Hoff. by vm_compute.
Defined.

Lemma reader_reports_its_failure_witness :
  GetDiskProperties sdk_descriptor os_geometry_fails 0 "" "" 0 initial_state
  = Returns ((false, "OLD-0001", "OLD DISK", 0),
             failed_call (device_path 0) "Failed to get disk geometry. Error: "
               ERROR_GEN_FAILURE initial_state)
  ∧ false = false
  ∧ cerr (failed_call (device_path 0) "Failed to get disk geometry. Error: "
            ERROR_GEN_FAILURE initial_state)
    = cerr initial_state ++ ["Failed to get disk geometry. Error: 31"].
Proof.
  assert (Hread : GetDiskProperties sdk_descriptor os_geometry_fails 0 "" "" 0
                    initial_state
                  = Returns ((false, "OLD-0001", "OLD DISK", 0),
                             failed_call (device_path 0)
                               "Failed to get disk geometry. Error: "
                               ERROR_GEN_FAILURE initial_state))
    by evaluated.
  split; [exact Hread |].
  exact (reader_reports_its_failure sdk_descriptor os_geometry_fails 0 "" "" 0
           initial_state false _ _ _ _ Hread).
Defined.

Section FurtherFetcher.

Variable as_descriptor : list BYTE → STORAGE_DEVICE_DESCRIPTOR.
Variable os : OS.

Implicit Types (σ : OSState) (path volumePath : string) (diskNumber : Z).

(** ** The constructor *)

(** A read that returns [true] has only added its path to the state. *)
Lemma GetDiskProperties_true_state diskNumber (sn m : string) (sz : Z) σ
    (sn' m' : string) (sz' : Z) σ' :
  GetDiskProperties as_descriptor os diskNumber sn m sz σ
  = Returns ((true, sn', m', sz'), σ') →
  σ' = log_open (device_path diskNumber) σ.
Proof.
  rewrite GetDiskProperties_eq. cbv zeta.
  destruct (os_open os _) as [e | dev]; [done |].
  destruct (storage_property dev) as [e | written]; [done |].
  destruct (field _ _ sn) as [sn1 | i]; [| done].
  destruct (field _ _ m) as [m1 | j]; [| done].
  destruct (drive_geometry dev) as [e | dg]; [done | by intros [= _ _ _ <-]].
Qed.

(** Where the three results of one read come from. *)
Lemma GetDiskProperties_provenance diskNumber (sn m : string) (sz : Z) σ
    (ok : bool) (sn' m' : string) (sz' : Z) σ' :
  GetDiskProperties as_descriptor os diskNumber sn m sz σ
  = Returns ((ok, sn', m', sz'), σ') →
  (sz' = sz ∨ size_from os [diskNumber] sz')
  ∧ (sn' = sn ∨ serial_from as_descriptor os [diskNumber] sn')
  ∧ (m' = m ∨ model_from as_descriptor os [diskNumber] m').
Proof.
  rewrite GetDiskProperties_eq. cbv zeta.
  destruct (os_open os _) as [e | dev] eqn:Hopen;
    [intros; simplify_eq; split; [| split]; by left |].
  destruct (storage_property dev) as [e | written] eqn:Hprop;
    [intros; simplify_eq; split; [| split]; by left |].
  pose proof (length_fill_buffer written) as Hlen.
  destruct (field _ _ sn) as [sn1 | i] eqn:Hs; [| done].
  destruct (field _ _ m) as [m1 | j] eqn:Hm; [| done].
  apply field_value in Hs; [| exact Hlen]. apply field_value in Hm; [| exact Hlen].
  intros Hret.
  assert (sn1 = sn' ∧ m1 = m') as [-> ->]
    by (destruct (drive_geometry dev); by simplify_eq).
  split; [| split].
  - destruct (drive_geometry dev) as [e | dg] eqn:Hgeo; simplify_eq; [by left |].
    right. exists diskNumber, dev, dg. by rewrite list_elem_of_singleton.
  - destruct Hs as [[_ ->] | Hs]; [by left |].
    right. exists diskNumber, dev, written. by rewrite list_elem_of_singleton.
  - destruct Hm as [[_ ->] | Hm]; [by left |].
    right. exists diskNumber, dev, written. by rewrite list_elem_of_singleton.
Qed.

Lemma size_from_mono (ds ds' : list Z) (z : Z) :
  ds ⊆ ds' → size_from os ds z → size_from os ds' z.
Proof.
  intros Hsub (d & dev & dg & Hd & H). exists d, dev, dg. split; [by apply Hsub | done].
Qed.

Lemma serial_from_mono (ds ds' : list Z) (s : string) :
  ds ⊆ ds' → serial_from as_descriptor os ds s → serial_from as_descriptor os ds' s.
Proof.
  intros Hsub (d & dev & w & Hd & H). exists d, dev, w. split; [by apply Hsub | done].
Qed.

Lemma model_from_mono (ds ds' : list Z) (s : string) :
  ds ⊆ ds' → model_from as_descriptor os ds s → model_from as_descriptor os ds' s.
Proof.
  intros Hsub (d & dev & w & Hd & H). exists d, dev, w. split; [by apply Hsub | done].
Qed.

Lemma try_disks_provenance (diskNumbers : list Z) (this : DiskPropertiesFetcher) σ f σ' :
  try_disks as_descriptor os diskNumbers this σ = Returns (f, σ') →
  (size f = size this ∨ size_from os diskNumbers (size f))
  ∧ (serialNumber f = serialNumber this
     ∨ serial_from as_descriptor os diskNumbers (serialNumber f))
  ∧ (model f = model this ∨ model_from as_descriptor os diskNumbers (model f)).
Proof.
  revert this σ.
  induction diskNumbers as [| d rest IH]; intros this σ; simpl.
  { intros [= <- _]. by repeat split; left. }
  unfold mbind, M_bind.
  destruct (GetDiskProperties _ _ d _ _ _ σ) as [[[[[ok sn'] m'] sz'] σ1] | i] eqn:Hread;
    [| done].
  apply GetDiskProperties_provenance in Hread as (Hsz & Hsn & Hm).
  assert (Hhead : [d] ⊆ d :: rest)
    by (intros x ->%list_elem_of_singleton; constructor).
  assert (Htail : rest ⊆ d :: rest) by (intros x Hx; by constructor).
  destruct ok; simpl.
  - intros [= <- _]. simpl.
    repeat split;
      [destruct Hsz | destruct Hsn | destruct Hm];
      eauto using size_from_mono, serial_from_mono, model_from_mono.
  - intros Hloop. apply IH in Hloop as (Hsz' & Hsn' & Hm'). simpl in *.
    repeat split.
    + destruct Hsz' as [-> | ?]; [destruct Hsz |]; eauto using size_from_mono.
    + destruct Hsn' as [-> | ?]; [destruct Hsn |]; eauto using serial_from_mono.
    + destruct Hm' as [-> | ?]; [destruct Hm |]; eauto using model_from_mono.
Qed.

(** The constructor invents nothing: the size it ends with is 0 or the
    product computed from the answered geometry of a disk the volume
    resolved to, and each of its two strings is empty or lies
    zero-terminated in the descriptor of such a disk, at that descriptor's
    offset for it. *)
Theorem fetched_data_come_from_resolved_disks volumePath σ f σ' :
  fetch as_descriptor os volumePath σ = Returns (f, σ') →
  (size f = 0 ∨ size_from os (resolved os volumePath) (size f))
  ∧ (serialNumber f = ""
     ∨ serial_from as_descriptor os (resolved os volumePath) (serialNumber f))
  ∧ (model f = ""
     ∨ model_from as_descriptor os (resolved os volumePath) (model f)).
Proof.
  unfold fetch, mbind, M_bind.
  destruct (GetVolumeDiskExtents_resolved os volumePath σ)
    as (ok & σ1 & -> & _ & _ & _).
  destruct ok; simpl.
  - intros Hloop. by apply try_disks_provenance in Hloop.
  - intros [= <- _]. by repeat split; left.
Qed.

Lemma try_disks_trace (diskNumbers : list Z) (this : DiskPropertiesFetcher) σ f σ' :
  try_disks as_descriptor os diskNumbers this σ = Returns (f, σ') →
  ∃ k, opened σ' = opened σ ++ map device_path (take k diskNumbers).
Proof.
  revert this σ.
  induction diskNumbers as [| d rest IH]; intros this σ; simpl.
  { intros [= _ <-]. exists 0%nat. by rewrite app_nil_r. }
  unfold mbind, M_bind.
  destruct (GetDiskProperties _ _ d _ _ _ σ) as [[[[[ok sn'] m'] sz'] σ1] | i] eqn:Hread;
    [| done].
  apply GetDiskProperties_frame in Hread as [_ Ho].
  destruct ok; simpl.
  - intros [= _ <-]. exists 1%nat. exact Ho.
  - intros Hloop. apply IH in Hloop as [k Hk]. exists (S k).
    rewrite Hk, Ho, <- app_assoc. reflexivity.
Qed.

(** The constructor opens the volume first and then the device paths of
    the disks the volume resolved to, in that order and without skipping
    one, up to some point; it opens nothing else. *)
Theorem fetch_opens_a_prefix_of_resolved_disks volumePath σ f σ' :
  fetch as_descriptor os volumePath σ = Returns (f, σ') →
  ∃ k, opened σ'
       = opened σ ++ volumePath :: map device_path (take k (resolved os volumePath)).
Proof.
  unfold fetch, mbind, M_bind.
  destruct (GetVolumeDiskExtents_resolved os volumePath σ)
    as (ok & σ1 & -> & _ & _ & Ho).
  destruct ok; simpl.
  - intros Hloop. apply try_disks_trace in Hloop as [k Hk]. exists k.
    rewrite Hk, Ho, <- app_assoc. reflexivity.
  - intros [= _ <-]. exists 0%nat. exact Ho.
Qed.

(** A construction on a volume whose disk reads successfully is silent:
    it writes nothing to [std::cerr], leaves the open handles as they were,
    and has opened the volume and that disk, in this order, and nothing
    else. *)
Theorem fetch_success_is_silent volumePath σ (d : Z) :
  resolved os volumePath = [d] →
  read_ok as_descriptor os d = Returns true →
  ∃ f σ',
    fetch as_descriptor os volumePath σ = Returns (f, σ')
    ∧ cerr σ' = cerr σ ∧ handles σ' = handles σ
    ∧ opened σ' = opened σ ++ [volumePath; device_path d].
Proof.
  intros Hres Hok. unfold fetch, mbind, M_bind.
  unfold resolved in Hres. rewrite GetVolumeDiskExtents_eq in *.
  destruct (os_open os volumePath) as [e | vol]; [done |].
  destruct (IOCTL_VOLUME_GET_VOLUME_DISK_EXTENTS ANYSIZE_ARRAY vol)
    as [e | Extents]; [done |].
  simpl in *. rewrite Hres. simpl. unfold mbind, M_bind.
  destruct (read_ok_any as_descriptor os d true "" "" 0 (log_open volumePath σ) Hok)
    as (sn' & m' & sz' & σ' & Hread).
  rewrite Hread. simpl.
  apply GetDiskProperties_true_state in Hread as ->.
  eexists _, _. split; [reflexivity |]. simpl.
  by rewrite <- app_assoc.
Qed.

End FurtherFetcher.

Lemma fetched_data_come_from_resolved_disks_witness :
  fetch sdk_descriptor os_geometry_fails "\\.\C:" initial_state
  = Returns ({| serialNumber := "OLD-0001"; model := "OLD DISK"; size := 0 |},
             failed_call (device_path 0) "Failed to get disk geometry. Error: "
               ERROR_GEN_FAILURE (log_open "\\.\C:" initial_state))
  ∧ (0 = 0 ∨ size_from os_geometry_fails (resolved os_geometry_fails "\\.\C:") 0)
  ∧ ("OLD-0001" = ""
     ∨ serial_from sdk_descriptor os_geometry_fails
         (resolved os_geometry_fails "\\.\C:") "OLD-0001")
  ∧ ("OLD DISK" = ""
     ∨ model_from sdk_descriptor os_geometry_fails
         (resolved os_geometry_fails "\\.\C:") "OLD DISK").
Proof.
  assert (Hfetch :
    fetch sdk_descriptor os_geometry_fails "\\.\C:" initial_state
    = Returns ({| serialNumber := "OLD-0001"; model := "OLD DISK"; size := 0 |},
               failed_call (device_path 0) "Failed to get disk geometry. Error: "
                 ERROR_GEN_FAILURE (log_open "\\.\C:" initial_state)))
    by evaluated.
  split; [exact Hfetch |].
  exact (fetched_data_come_from_resolved_disks sdk_descriptor os_geometry_fails "\\.\C:"
           initial_state _ _ Hfetch).
Defined.

Lemma fetch_opens_a_prefix_of_resolved_disks_witness :
  fetch sdk_descriptor os_single "\\.\C:" initial_state
  = Returns ({| serialNumber := "WD-1234"; model := "ACME SSD"; size := 8225280000 |},
             log_open (device_path 0) (log_open "\\.\C:" initial_state))
  ∧ ∃ k, opened (log_open (device_path 0) (log_open "\\.\C:" initial_state))
         = opened initial_state
           ++ "\\.\C:" :: map device_path (take k (resolved os_single "\\.\C:")).
Proof.
  assert (Hfetch :
    fetch sdk_descriptor os_single "\\.\C:" initial_state
    = Returns ({| serialNumber := "WD-1234"; model := "ACME SSD"; size := 8225280000 |},
               log_open (device_path 0) (log_open "\\.\C:" initial_state)))
    by evaluated.
  split; [exact Hfetch |].
  exact (fetch_opens_a_prefix_of_resolved_disks sdk_descriptor os_single "\\.\C:"
           initial_state _ _ Hfetch).
Defined.

Lemma fetch_success_is_silent_witness :
  (resolved os_single "\\.\C:" = [0]
   ∧ read_ok sdk_descriptor os_single 0 = Returns true)
  ∧ ∃ f σ',
      fetch sdk_descriptor os_single "\\.\C:" initial_state = Returns (f, σ')
      ∧ cerr σ' = cerr initial_state ∧ handles σ' = handles initial_state
      ∧ opened σ' = opened initial_state ++ ["\\.\C:"; device_path 0].
Proof.
  assert (Hres : resolved os_single "\\.\C:" = [0]) by evaluated.
  assert (Hok : read_ok sdk_descriptor os_single 0 = Returns true) by evaluated.
  split; [done |].
  exact (fetch_success_is_silent sdk_descriptor os_single "\\.\C:"
           initial_state 0 Hres Hok).
Defined.

(** ** The size accessor *)

(** For a size that is not negative the accessor never overstates the
    capacity: the gigabytes it reports, taken back to bytes, do not exceed
    the size, so a disk below 1 GiB reports 0. *)
Theorem DiskSize_never_overstates (this : DiskPropertiesFetcher) :
  0 ≤ size this →
  2 ^ 30 * Z.of_N (DiskSize this) ≤ size this
  ∧ (size this < 2 ^ 30 → DiskSize this = 0%N).
Proof.
  intros Hpos. unfold DiskSize, DWORD_of_LONGLONG.
  change (1024 * 1024 * 1024) with (2 ^ 30).
  rewrite Z.quot_div_nonneg by lia.
  assert (Hq : 0 ≤ size this / 2 ^ 30) by (apply Z.div_pos; lia).
  pose proof (Z.mod_pos_bound (size this / 2 ^ 30) (2 ^ 32) ltac:(lia)) as Hmod.
  pose proof (Z.mod_le (size this / 2 ^ 30) (2 ^ 32) Hq ltac:(lia)) as Hle.
  pose proof (Z.mul_div_le (size this) (2 ^ 30) ltac:(lia)) as Hfloor.
  split; [rewrite Z2N.id by lia; nia |].
  intros Hsmall. rewrite Z.div_small by lia. reflexivity.
Qed.

Lemma DiskSize_never_overstates_witness :
  0 ≤ 8225280000
  ∧ 2 ^ 30 * Z.of_N (DiskSize {| serialNumber := ""; model := ""; size := 8225280000 |})
    ≤ 8225280000
  ∧ (8225280000 < 2 ^ 30 →
     DiskSize {| serialNumber := ""; model := ""; size := 8225280000 |} = 0%N).
Proof.
  assert (Hpos : 0 ≤ 8225280000) by lia.
  split; [exact Hpos |].
  exact (DiskSize_never_overstates
           {| serialNumber := ""; model := ""; size := 8225280000 |} Hpos).
Defined.
